(** * ejemplo.py: scraping, cleaning and frequency analysis of two articles

A shallow embedding of [src/ejemplo.py].  The script downloads an English
and a Latin Wikipedia article, cleans the paragraph text with two regular
expressions, buckets the tokens of each text into "palabras" and "verbos",
and ranks each bucket with [Counter(...).most_common(top_n)].

Conventions of the embedding:
- a Python [str] is a list of characters; a character is an [ascii],
  read as the Unicode code point of the same number (0..255), so the
  texts covered are the Latin-1 ones.  [str.lower], [str.isspace] and the
  regular expression classes [\w], [\s] are written out for that range;
- a Python [int] is a [Z]; lengths and counts, which are never negative,
  are [nat];
- a [dict] whose iteration order matters ([Counter]) is an association
  list in insertion order; a [set] used only for membership is a list;
- the network, the HTML parser, the spaCy pipeline and the Excel writer
  are collaborators of the script: their answers are parameters. *)

From Stdlib Require Import Ascii String.
From Stdlib Require Import List Bool Arith NArith ZArith Lia.
From Stdlib Require Import Permutation Sorted.
Import ListNotations.

Local Open Scope list_scope.
Local Open Scope nat_scope.

(* ================================================================== *)
(** ** Python strings *)

Definition str := list ascii.

Definition lit (s : string) : str := list_ascii_of_string s.
Arguments lit s%_string.

Definition str_eq_dec : forall a b : str, {a = b} + {a <> b} :=
  list_eq_dec ascii_dec.

Definition str_eqb (a b : str) : bool :=
  if str_eq_dec a b then true else false.

Definition code (c : ascii) : N := N_of_ascii c.

Definition between (lo hi : N) (c : ascii) : bool :=
  ((lo <=? code c) && (code c <=? hi))%N.

Definition is_char (n : N) (c : ascii) : bool := (code c =? n)%N.

(** The line feed, which [.] does not match and ["\n".join] inserts. *)
Definition LF : ascii := ascii_of_N 10.

Definition ascii_upper (c : ascii) : bool := between 65 90 c.
Definition ascii_lower (c : ascii) : bool := between 97 122 c.
Definition ascii_digit (c : ascii) : bool := between 48 57 c.

(** [str.isspace] on one character (also the class [\s] of [re] on a [str]
    pattern, and what [str.strip()] removes): TAB..CR, FS..US, space, NEL
    and the no-break space. *)
Definition py_isspace (c : ascii) : bool :=
  between 9 13 c || between 28 32 c || is_char 133 c || is_char 160 c.

(** [str.isalnum] on one character: letters, decimal digits and the other
    numeric characters of Latin-1 (superscripts and vulgar fractions). *)
Definition py_isalnum (c : ascii) : bool :=
  ascii_upper c || ascii_lower c || ascii_digit c
  || is_char 170 c || is_char 178 c || is_char 179 c || is_char 181 c
  || is_char 185 c || is_char 186 c || between 188 190 c
  || between 192 214 c || between 216 246 c || between 248 255 c.

(** [str.lower]: in Latin-1 every cased character lowers to one character,
    32 code points above it; the multiplication sign 215 is not a letter. *)
Definition lower_char (c : ascii) : ascii :=
  if ascii_upper c || (between 192 222 c && negb (is_char 215 c))
  then ascii_of_N (code c + 32)
  else c.

Definition py_lower (s : str) : str := map lower_char s.

Fixpoint drop_while (p : ascii -> bool) (s : str) : str :=
  match s with
  | [] => []
  | c :: r => if p c then drop_while p r else s
  end.

(** [s.strip()]: whitespace removed at both ends. *)
Definition py_strip (s : str) : str :=
  rev (drop_while py_isspace (rev (drop_while py_isspace s))).

(** [s[:n]] for [n >= 0]. *)
Definition py_slice_to (n : Z) (s : str) : str := firstn (Z.to_nat n) s.

(** [sep.join(parts)]. *)
Fixpoint py_join (sep : str) (parts : list str) : str :=
  match parts with
  | [] => []
  | [p] => p
  | p :: rest => p ++ sep ++ py_join sep rest
  end.

(** [s.endswith(suf)] and [s.endswith(tuple)]. *)
Definition py_endswith (s suf : str) : bool :=
  (length suf <=? length s)
  && str_eqb (skipn (length s - length suf) s) suf.

Definition py_endswith_any (s : str) (sufs : list str) : bool :=
  existsb (py_endswith s) sufs.

(** [x in collection]. *)
Definition py_in (x : str) (l : list str) : bool :=
  if in_dec str_eq_dec x l then true else false.

(* ================================================================== *)
(** ** The [re] module: scanning a subject for the matches of a pattern *)

Module Re.

(** What a scan leaves of the subject: the matches, and the characters
    between them. *)
Inductive piece : Type :=
| Matched (m : str)
| Literal (c : ascii).

Section Scan.

(** A compiled pattern, tried at one position: it sees the character
    before the position ([None] at the start of the subject) and the
    rest of the subject, and answers the length of its match.  None of
    the script's three patterns can match the empty string. *)
Variable pattern : option ascii -> str -> option nat.

(** Left to right: a match is taken where the pattern first succeeds, the
    scan resumes after it ([skip] counts the characters of the current
    match still to pass); elsewhere one character is passed. *)
Fixpoint scan (skip : nat) (prev : option ascii) (s : str) : list piece :=
  match s with
  | [] => []
  | c :: r =>
      match skip with
      | S k => scan k (Some c) r
      | O =>
          match pattern prev s with
          | Some (S k) => Matched (firstn (S k) s) :: scan k (Some c) r
          | _ => Literal c :: scan O (Some c) r
          end
      end
  end.

Definition matches (ps : list piece) : list str :=
  flat_map (fun p => match p with Matched m => [m] | Literal _ => [] end) ps.

Definition replace (repl : str) (ps : list piece) : str :=
  flat_map (fun p => match p with Matched _ => repl | Literal c => [c] end) ps.

(** [re.findall(pattern, s)] for a pattern without groups. *)
Definition findall (s : str) : list str := matches (scan 0 None s).

(** [re.sub(pattern, repl, s)] for a replacement without escapes. *)
Definition sub (repl : str) (s : str) : str := replace repl (scan 0 None s).

(** [re.search(pattern, s) is not None]. *)
Definition search (s : str) : bool :=
  match matches (scan 0 None s) with [] => false | _ => true end.

End Scan.

(** Length of the longest prefix in a character class (a greedy [+]). *)
Fixpoint greedy (cls : ascii -> bool) (s : str) : nat :=
  match s with
  | c :: r => if cls c then S (greedy cls r) else 0
  | [] => 0
  end.

(** [\w]: alphanumeric or the underscore. *)
Definition word_char (c : ascii) : bool := py_isalnum c || is_char 95 c.

Definition word_opt (o : option ascii) : bool :=
  match o with Some c => word_char c | None => false end.

(** [\b] between [prev] and the head of [s]: exactly one side is a word
    character (the ends of the subject count as non-word). *)
Definition word_boundary (prev : option ascii) (s : str) : bool :=
  xorb (word_opt prev) (word_opt (hd_error s)).

(** [[a-zA-Z]] *)
Definition class_azAZ (c : ascii) : bool := ascii_lower c || ascii_upper c.

(** The greedy [+] gives back one character at a time until the closing
    [\b] holds after [k] characters. *)
Fixpoint give_back (k : nat) (s : str) : option nat :=
  match k with
  | O => None
  | S k' =>
      if word_boundary (nth_error s k') (skipn k s) then Some k
      else give_back k' s
  end.

(** [r'\b[a-zA-Z]+\b'] *)
Definition pat_palabra (prev : option ascii) (s : str) : option nat :=
  if word_boundary prev s then give_back (greedy class_azAZ s) s else None.

(** [.*?\]] after the opening bracket: the lazy star takes one more
    character only when the closing bracket is not next, and [.] refuses
    the line feed. *)
Fixpoint lazy_close (s : str) : option nat :=
  match s with
  | [] => None
  | c :: r =>
      if is_char 93 c then Some 1
      else if is_char 10 c then None
      else option_map S (lazy_close r)
  end.

(** [r"\[.*?\]"] *)
Definition pat_referencia (_ : option ascii) (s : str) : option nat :=
  match s with
  | c :: r => if is_char 91 c then option_map S (lazy_close r) else None
  | [] => None
  end.

(** [r"\s+"] *)
Definition pat_espacios (_ : option ascii) (s : str) : option nat :=
  match greedy py_isspace s with
  | O => None
  | n => Some n
  end.

End Re.

(* ================================================================== *)
(** ** [collections.Counter] *)

Definition ranking := list (str * nat).

(** [d[k] = d.get(k, 0) + 1] on a dict kept in insertion order: a key seen
    before keeps its place, a new key goes last. *)
Fixpoint counter_add (k : str) (d : ranking) : ranking :=
  match d with
  | [] => [(k, 1)]
  | (k', c) :: d' =>
      if str_eq_dec k k' then (k', S c) :: d'
      else (k', c) :: counter_add k d'
  end.

(** [Counter(iterable)]: the elements are counted from left to right. *)
Definition Counter (l : list str) : ranking :=
  fold_left (fun d k => counter_add k d) l [].

(** Insertion of an entry before the first one of count not above its own. *)
Fixpoint insert_desc (x : str * nat) (l : ranking) : ranking :=
  match l with
  | [] => [x]
  | y :: r => if snd x <? snd y then y :: insert_desc x r else x :: l
  end.

(** [sorted(items, key=itemgetter(1), reverse=True)]: descending by count,
    entries of equal count in their original order. *)
Definition sorted_desc (l : ranking) : ranking := fold_right insert_desc [] l.

(** [Counter.most_common(n)] for an integer [n], which is
    [heapq.nlargest(n, items, key=itemgetter(1))], the first [n] entries of
    the descending stable sort (none for [n <= 0]). *)
Definition most_common (n : Z) (d : ranking) : ranking :=
  firstn (Z.to_nat n) (sorted_desc d).

(* ================================================================== *)
(** ** 1. Scraping: [scrapear_wikipedia] *)

(** Lines 55 and 59: the two substitutions and the [strip] that turn
    [texto_sucio] into [texto]. *)
Definition limpiar (texto_sucio : str) : str :=
  let texto := Re.sub Re.pat_referencia [] texto_sucio in
  py_strip (Re.sub Re.pat_espacios (lit " ") texto).

(** What the request and the parser hand to the function: an exception
    somewhere inside the [try], or a parsed page with its [h1#firstHeading]
    text (if the tag exists) and the texts of the paragraphs of
    [div#bodyContent] (if the div exists). *)
Inductive respuesta : Type :=
| Excepcion
| Pagina (titulo_tag : option str) (contenido_div : option (list str)).

Definition sin_titulo : str := lit "Sin T" ++ [ascii_of_N 237] ++ lit "tulo".

Definition scrapear_respuesta (r : respuesta) : option str * option str :=
  match r with
  | Excepcion => (None, None)
  | Pagina titulo_tag contenido_div =>
      let titulo :=
        match titulo_tag with
        | Some t => py_strip t
        | None => sin_titulo
        end in
      match contenido_div with
      | None => (Some titulo, Some [])
      | Some parrafos =>
          let texto_sucio := py_join [LF] parrafos in
          (Some titulo, Some (limpiar texto_sucio))
      end
  end.

(* ================================================================== *)
(** ** 2. English: [analizar_texto_ingles] *)

(** A spaCy token, with the attributes the script reads. *)
Record Token : Type := mkToken {
  text : str;
  lemma_ : str;
  pos_ : str;
  is_alpha : bool;
  is_stop : bool
}.

(** Line 85. *)
Definition pasa_filtros (token : Token) : bool :=
  is_alpha token && negb (is_stop token) && (2 <? length (text token)).

(** Lines 83 to 92: one turn of the loop on the pair [(palabras, verbos)]. *)
Definition paso_ingles (st : list str * list str) (token : Token)
  : list str * list str :=
  let '(palabras, verbos) := st in
  if pasa_filtros token then
    let lemma := py_lower (lemma_ token) in
    if str_eqb (pos_ token) (lit "VERB") then (palabras, verbos ++ [lemma])
    else if py_in (pos_ token) [lit "NOUN"; lit "PROPN"; lit "ADJ"]
         then (palabras ++ [lemma], verbos)
         else (palabras, verbos)
  else (palabras, verbos).

Definition buckets_ingles (doc : list Token) : list str * list str :=
  fold_left paso_ingles doc ([], []).

Definition analizar_doc_ingles (doc : list Token) (top_n : Z)
  : ranking * ranking :=
  let '(palabras, verbos) := buckets_ingles doc in
  (most_common top_n (Counter palabras), most_common top_n (Counter verbos)).

(* ================================================================== *)
(** ** 3. Latin: [analizar_texto_latin_basico] *)

Definition stopwords_latin : list str :=
  map lit
    ["et"; "in"; "de"; "ad"; "non"; "ut"; "cum"; "per"; "sed";
     "qui"; "quae"; "quod"; "est"; "sunt"; "fuit"; "ex"; "ab";
     "se"; "is"; "ea"; "id"; "ac"; "atque"; "aut"; "autem";
     "enim"; "etiam"; "ibi"; "iam"; "ita"; "nam"; "ne"; "nec";
     "nunc"; "quam"; "quia"; "sic"; "tam"; "tamen"; "ubi"; "vel"]%string.

(** Line 119. *)
Definition palabras_raw (texto : str) : list str :=
  Re.findall Re.pat_palabra (py_lower texto).

(** Lines 121 to 124. *)
Definition palabras_filtradas (texto : str) : list str :=
  filter (fun p => negb (py_in p stopwords_latin) && (2 <? length p))
         (palabras_raw texto).

Definition terminaciones_verbos : list str :=
  map lit
    ["are"; "ere"; "ire"; "sse";
     "at"; "et"; "it"; "ant"; "ent"; "unt"; "bat"; "bant";
     "avit"; "evit"; "ivit"]%string.

(** Line 138: the test of the loop. *)
Definition es_verbo (p : str) : bool := py_endswith_any p terminaciones_verbos.

(** Lines 137 to 141: one turn of the loop on [(lista_verbos, lista_palabras)]. *)
Definition paso_latin (st : list str * list str) (p : str)
  : list str * list str :=
  let '(lista_verbos, lista_palabras) := st in
  if es_verbo p then (lista_verbos ++ [p], lista_palabras)
  else (lista_verbos, lista_palabras ++ [p]).

Definition buckets_latin (texto : str) : list str * list str :=
  fold_left paso_latin (palabras_filtradas texto) ([], []).

Definition lista_verbos (texto : str) : list str := fst (buckets_latin texto).
Definition lista_palabras (texto : str) : list str := snd (buckets_latin texto).

Definition analizar_texto_latin_basico (texto : str) (top_n : Z)
  : ranking * ranking :=
  (most_common top_n (Counter (lista_palabras texto)),
   most_common top_n (Counter (lista_verbos texto))).

(* ================================================================== *)
(** ** 4. [main] *)

(** The rows handed to the Excel writer. *)
Record Informe : Type := mkInforme {
  titulos : option str * option str;
  contenido_limpio : str * str;
  analisis_ingles : ranking * ranking;
  analisis_latin : ranking * ranking
}.

Inductive resultado : Type :=
| SinScraping                    (* line 163: nothing analysed or written *)
| ErrorNoCapturado               (* line 166: the ValueError of line 78
                                    leaves [main], nothing is written *)
| Guardado (i : Informe)         (* line 200 *)
| ErrorAlGuardar (i : Informe).  (* line 204 *)

(** Line 77: the limit [nlp_en.max_length] set before the pipeline is
    called. *)
Definition max_length : Z := 2000000.

(** [not texto]: [None] and the empty string are false values. *)
Definition py_not (texto : option str) : bool :=
  match texto with
  | None => true
  | Some [] => true
  | Some (_ :: _) => false
  end.

Section Main.

(** The collaborators: what the web answers for a URL, the tokens the spaCy
    pipeline [nlp_en] gives for a text it accepts, and whether writing the
    workbook raises. *)
Variable web : str -> respuesta.
Variable nlp_en : str -> list Token.
Variable excel_ok : Informe -> bool.

Definition scrapear_wikipedia (url : str) : option str * option str :=
  scrapear_respuesta (web url).

(** Lines 77 to 97.  [nlp_en(texto)] raises a ValueError when
    [len(texto) > nlp_en.max_length]; nothing in the script catches it, and
    [None] stands for it. *)
Definition analizar_texto_ingles (texto : str) (top_n : Z)
  : option (ranking * ranking) :=
  if (max_length <? Z.of_nat (List.length texto))%Z then None
  else Some (analizar_doc_ingles (nlp_en texto) top_n).

Definition url_en : str := lit "https://en.wikipedia.org/wiki/Cristiano_Ronaldo".
Definition url_la : str := lit "https://la.wikipedia.org/wiki/Christianus_Ronaldo".

Definition main : resultado :=
  let '(titulo_en, texto_en) := scrapear_wikipedia url_en in
  let '(titulo_la, texto_la) := scrapear_wikipedia url_la in
  if py_not texto_en || py_not texto_la then SinScraping
  else
    match texto_en, texto_la with
    | Some t_en, Some t_la =>
        match analizar_texto_ingles t_en 15 with
        | None => ErrorNoCapturado
        | Some en =>
            let informe :=
              {| titulos := (titulo_en, titulo_la);
                 contenido_limpio :=
                   (py_slice_to 30000 t_en, py_slice_to 30000 t_la);
                 analisis_ingles := en;
                 analisis_latin := analizar_texto_latin_basico t_la 15 |} in
            if excel_ok informe then Guardado informe
            else ErrorAlGuardar informe
        end
    | _, _ => SinScraping
    end.

End Main.

(* ================================================================== *)
(** ** Vocabulary of the statements *)

Definition keys (d : ranking) : list str := map fst d.

(** [d[k]] on a [Counter]: a missing key counts 0. *)
Fixpoint counter_get (k : str) (d : ranking) : nat :=
  match d with
  | [] => 0
  | (k', c) :: d' => if str_eq_dec k k' then c else counter_get k d'
  end.

(** Multiplicity of a token in a bucket. *)
Definition multiplicity (b : list str) (t : str) : nat :=
  count_occ str_eq_dec b t.

(** Number of distinct tokens of a bucket. *)
Definition distinct_count (b : list str) : nat :=
  List.length (nodup str_eq_dec b).

(** Position of the first occurrence of [t] in [l] (the length of [l] when
    there is none). *)
Fixpoint first_index (t : str) (l : list str) : nat :=
  match l with
  | [] => 0
  | x :: r => if str_eq_dec t x then 0 else S (first_index t r)
  end.

(** Non-increasing counts. *)
Definition count_ge (x y : str * nat) : Prop := snd y <= snd x.

(** [x] stands at a position of [l] before a position where [y] stands. *)
Fixpoint before {A : Type} (x y : A) (l : list A) : Prop :=
  match l with
  | [] => False
  | z :: r => (z = x /\ In y r) \/ before x y r
  end.

(** Maximal runs of the characters of a class, in order of appearance: the
    run being read is closed at the first character outside the class and
    at the end of the text. *)
Definition close_run (cur : str) : list str :=
  match cur with [] => [] | _ => [cur] end.

Fixpoint runs_from (cls : ascii -> bool) (cur : str) (s : str) : list str :=
  match s with
  | [] => close_run cur
  | c :: r =>
      if cls c then runs_from cls (cur ++ [c]) r
      else close_run cur ++ runs_from cls [] r
  end.

Definition runs (cls : ascii -> bool) (s : str) : list str := runs_from cls [] s.

(** The tokenizer as the specification words it: the maximal runs of ASCII
    letters of the lowercased text, every other character being a boundary. *)
Definition letter_runs (texto : str) : list str :=
  runs Re.class_azAZ (py_lower texto).

(** A token made of ASCII letters only. *)
Definition all_letters (w : str) : bool := forallb Re.class_azAZ w.

Definition nonspace (c : ascii) : bool := negb (py_isspace c).

(** Two whitespace characters in a row. *)
Fixpoint adjacent_spaces (s : str) : bool :=
  match s with
  | [] => false
  | a :: r =>
      match r with
      | [] => false
      | b :: _ => (py_isspace a && py_isspace b) || adjacent_spaces r
      end
  end.

Definition space_first (s : str) : bool :=
  match s with c :: _ => py_isspace c | [] => false end.

Definition space_last (s : str) : bool := space_first (rev s).

(** [re.search(r"\[.*?\]", s) is not None]: the text still holds a match of
    the reference pattern. *)
Definition has_reference (s : str) : bool := Re.search Re.pat_referencia s.

(** An opening bracket, any content at all, a closing bracket. *)
Fixpoint closes_after (opened : bool) (s : str) : bool :=
  match s with
  | [] => false
  | c :: r =>
      if opened && is_char 93 c then true
      else closes_after (opened || is_char 91 c) r
  end.

Definition bracket_pair (s : str) : bool := closes_after false s.

(** The lowercased lemma a token contributes. *)
Definition lema (token : Token) : str := py_lower (lemma_ token).

(** Acceptance as the specification words it: alphabetic, not a stopword,
    and more than two characters long after normalization, the normalized
    form of an English token being its lowercased lemma. *)
Definition accepted_normalized (token : Token) : bool :=
  is_alpha token && negb (is_stop token) && (2 <? List.length (lema token)).

Definition tags_palabra : list str := [lit "NOUN"; lit "PROPN"; lit "ADJ"].

(** The tokens that reach line 89, and those that reach line 92. *)
Definition contribuye_verbo (token : Token) : bool :=
  pasa_filtros token && str_eqb (pos_ token) (lit "VERB").

Definition contribuye_palabra (token : Token) : bool :=
  pasa_filtros token && py_in (pos_ token) tags_palabra.

(** The token spaCy gives for the word "went": a verb of lemma "go". *)
Definition token_went : Token :=
  {| text := lit "went"; lemma_ := lit "go"; pos_ := lit "VERB";
     is_alpha := true; is_stop := false |}.

(** [a] is a proper suffix of [b]. *)
Definition proper_suffix (a b : str) : bool :=
  negb (str_eqb a b) && py_endswith b a.

(** The pairs [(a, b)] of a list of endings with [a] a proper suffix of [b]. *)
Definition overlaps (l : list str) : list (str * str) :=
  filter (fun ab => proper_suffix (fst ab) (snd ab)) (list_prod l l).

(** No ending of the list is a proper suffix of another. *)
Definition mutually_exclusive (l : list str) : Prop :=
  forall a b, In a l -> In b l -> proper_suffix a b = false.

(* ================================================================== *)
(** ** Lists: positions, prefixes, sums *)

Section ListFacts.

Context {A : Type}.

Lemma before_In (x y : A) l : before x y l -> In x l /\ In y l.
Proof.
  induction l as [|z r IH]; simpl; [tauto|].
  intros [[-> Hy] | H]; [tauto|].
  destruct (IH H); tauto.
Qed.

Lemma before_app_single (x y k : A) l :
  before x y (l ++ [k]) -> before x y l \/ (y = k /\ In x l).
Proof.
  induction l as [|z r IH]; simpl.
  - intros [[_ []] | []].
  - intros [[-> Hy] | H].
    + apply in_app_or in Hy. destruct Hy as [Hy | [-> | []]]; auto.
    + destruct (IH H) as [Hb | [-> Hx]]; auto.
Qed.

Lemma before_map {B : Type} (f : A -> B) (x y : A) l :
  before x y l -> before (f x) (f y) (map f l).
Proof.
  induction l as [|z r IH]; simpl; [tauto|].
  intros [[-> Hy] | H]; [left | right; auto].
  split; [reflexivity | now apply in_map].
Qed.

Lemma nth_error_before (l : list A) : forall i j x y,
  i < j -> nth_error l i = Some x -> nth_error l j = Some y -> before x y l.
Proof.
  induction l as [|z r IH]; intros i j x y Hij Hi Hj.
  - destruct i; discriminate.
  - destruct j as [|j]; [lia|]. simpl in Hj.
    destruct i as [|i]; simpl in Hi.
    + injection Hi as ->. left. split; [reflexivity|].
      eapply nth_error_In; eassumption.
    + right. apply (IH i j); auto. lia.
Qed.

Lemma nth_error_firstn_Some (l : list A) : forall n i x,
  nth_error (firstn n l) i = Some x -> nth_error l i = Some x.
Proof.
  induction l as [|z r IH]; intros [|n] [|i] x; simpl; try discriminate; auto.
  apply IH.
Qed.

Lemma In_firstn (l : list A) : forall n x, In x (firstn n l) -> In x l.
Proof.
  induction l as [|z r IH]; intros [|n] x; simpl; try tauto.
  intros [H | H]; [auto | right; eapply IH; eassumption].
Qed.

(** Induction on the length of a list: the scans below resume after a
    match, on a shorter text that is not the tail. *)
Lemma length_ind (P : list A -> Prop) :
  (forall s, (forall t, List.length t < List.length s -> P t) -> P s) ->
  forall s, P s.
Proof.
  intros H s. remember (List.length s) as n eqn:E. revert s E.
  induction n as [n IH] using lt_wf_ind. intros s ->.
  apply H. intros t Ht. exact (IH (List.length t) Ht t eq_refl).
Qed.

Lemma In_skipn (l : list A) : forall n x, In x (skipn n l) -> In x l.
Proof.
  induction l as [|z r IH]; intros [|n] x; simpl; try tauto.
  intros H. right. eapply IH; eassumption.
Qed.

Lemma StronglySorted_firstn (R : A -> A -> Prop) (l : list A) : forall n,
  StronglySorted R l -> StronglySorted R (firstn n l).
Proof.
  induction l as [|z r IH]; intros [|n] H; simpl; try constructor.
  - apply IH. now inversion H.
  - inversion H as [|? ? _ Hall]; subst.
    rewrite Forall_forall in *. intros y Hy. apply Hall.
    eapply In_firstn; eassumption.
Qed.

End ListFacts.

Lemma list_sum_firstn (l : list nat) : forall n,
  list_sum (firstn n l) <= list_sum l.
Proof.
  induction l as [|z r IH]; intros [|n]; simpl; try lia.
  specialize (IH n). lia.
Qed.

Lemma list_sum_perm (l l' : list nat) :
  Permutation l l' -> list_sum l = list_sum l'.
Proof. induction 1; simpl; lia. Qed.

Lemma firstn_map_snd (l : ranking) n :
  map snd (firstn n l) = firstn n (map snd l).
Proof. symmetry. apply firstn_map. Qed.

(* ================================================================== *)
(** ** First occurrences *)

Lemma first_index_lt t l : In t l -> first_index t l < List.length l.
Proof.
  induction l as [|x r IH]; simpl; [tauto|].
  destruct (str_eq_dec t x) as [->|Hn]; [lia|].
  intros [H | H]; [congruence | apply IH in H; lia].
Qed.

Lemma first_index_app_l t l l' :
  In t l -> first_index t (l ++ l') = first_index t l.
Proof.
  induction l as [|x r IH]; simpl; [tauto|].
  destruct (str_eq_dec t x) as [->|Hn]; [reflexivity|].
  intros [H | H]; [congruence | now rewrite IH].
Qed.

Lemma first_index_new t l : ~ In t l -> first_index t (l ++ [t]) = List.length l.
Proof.
  induction l as [|x r IH]; simpl; intros H.
  - destruct (str_eq_dec t t); congruence.
  - destruct (str_eq_dec t x) as [->|Hn]; [tauto|].
    rewrite IH; tauto.
Qed.

(* ================================================================== *)
(** ** [Counter]: what one more element does to the table *)

Lemma Counter_snoc b k : Counter (b ++ [k]) = counter_add k (Counter b).
Proof. unfold Counter. now rewrite fold_left_app. Qed.

Lemma keys_counter_add k d :
  keys (counter_add k d) =
  if in_dec str_eq_dec k (keys d) then keys d else keys d ++ [k].
Proof.
  induction d as [|[k' c] d IH]; simpl; [reflexivity|].
  destruct (str_eq_dec k k') as [->|Hn]; simpl.
  - destruct (str_eq_dec k' k'); [reflexivity | congruence].
  - rewrite IH. destruct (str_eq_dec k' k); [congruence|].
    now destruct (in_dec str_eq_dec k (keys d)).
Qed.

Lemma counter_get_add t k d :
  counter_get t (counter_add k d) =
  if str_eq_dec t k then S (counter_get t d) else counter_get t d.
Proof.
  induction d as [|[k' c] d IH]; simpl.
  - now destruct (str_eq_dec t k).
  - destruct (str_eq_dec k k') as [->|Hn]; simpl.
    + destruct (str_eq_dec t k'); reflexivity.
    + rewrite IH.
      destruct (str_eq_dec t k'), (str_eq_dec t k); congruence.
Qed.

Lemma list_sum_counter_add k d :
  list_sum (map snd (counter_add k d)) = S (list_sum (map snd d)).
Proof.
  induction d as [|[k' c] d IH]; simpl; [reflexivity|].
  destruct (str_eq_dec k k'); simpl; [reflexivity | rewrite IH; lia].
Qed.

Lemma counter_get_In t c d :
  NoDup (keys d) -> In (t, c) d -> counter_get t d = c.
Proof.
  induction d as [|[k' c'] d IH]; simpl; [tauto|].
  intros Hnd [H | H].
  - injection H as -> ->. destruct (str_eq_dec t t); congruence.
  - inversion Hnd as [|? ? Hnot Hnd']; subst.
    destruct (str_eq_dec t k') as [->|Hn]; [|auto].
    exfalso. apply Hnot. change k' with (fst (k', c)). now apply in_map.
Qed.

(** The table of a bucket: its keys are the bucket's tokens, each once, and
    each stored count is the token's multiplicity. *)
Lemma keys_Counter_In b t : In t (keys (Counter b)) <-> In t b.
Proof.
  induction b as [|k b IH] using rev_ind; [simpl; tauto|].
  rewrite Counter_snoc, keys_counter_add, in_app_iff.
  destruct (in_dec str_eq_dec k (keys (Counter b))) as [Hin | Hout].
  - rewrite IH. simpl. intuition (subst; tauto).
  - rewrite in_app_iff, IH. tauto.
Qed.

Lemma keys_Counter_NoDup b : NoDup (keys (Counter b)).
Proof.
  induction b as [|k b IH] using rev_ind; [constructor|].
  rewrite Counter_snoc, keys_counter_add.
  destruct (in_dec str_eq_dec k (keys (Counter b))) as [Hin | Hout]; [exact IH|].
  apply NoDup_rev in IH. rewrite <- (rev_involutive (_ ++ _)).
  apply NoDup_rev. rewrite rev_app_distr. simpl. constructor; [|exact IH].
  now rewrite <- in_rev.
Qed.

Lemma counter_get_Counter b t : counter_get t (Counter b) = multiplicity b t.
Proof.
  unfold multiplicity.
  induction b as [|k b IH] using rev_ind; [reflexivity|].
  rewrite Counter_snoc, counter_get_add, count_occ_app, IH. simpl.
  destruct (str_eq_dec t k), (str_eq_dec k t); try congruence; lia.
Qed.

Lemma list_sum_Counter b : list_sum (map snd (Counter b)) = List.length b.
Proof.
  induction b as [|k b IH] using rev_ind; [reflexivity|].
  rewrite Counter_snoc, list_sum_counter_add, IH, length_app. simpl. lia.
Qed.

Lemma length_Counter b : List.length (Counter b) = distinct_count b.
Proof.
  unfold distinct_count.
  rewrite <- (length_map fst). apply Permutation_length.
  apply NoDup_Permutation.
  - apply keys_Counter_NoDup.
  - apply NoDup_nodup.
  - intros t. fold (keys (Counter b)). rewrite keys_Counter_In, nodup_In. tauto.
Qed.

Lemma Counter_entry b t c :
  In (t, c) (Counter b) -> c = multiplicity b t /\ 1 <= c.
Proof.
  intros H.
  assert (Hc : c = multiplicity b t).
  { rewrite <- counter_get_Counter. symmetry.
    apply counter_get_In; [apply keys_Counter_NoDup | exact H]. }
  split; [exact Hc|]. subst c. unfold multiplicity.
  apply (count_occ_In str_eq_dec). apply keys_Counter_In.
  change t with (fst (t, multiplicity b t)). now apply in_map.
Qed.

(** Insertion order is the order of first occurrences. *)
Lemma keys_Counter_order b : forall t1 t2,
  before t1 t2 (keys (Counter b)) -> first_index t1 b < first_index t2 b.
Proof.
  induction b as [|k b IH] using rev_ind; intros t1 t2 H; [destruct H|].
  rewrite Counter_snoc, keys_counter_add in H.
  assert (Hold : before t1 t2 (keys (Counter b)) ->
                 first_index t1 (b ++ [k]) < first_index t2 (b ++ [k])).
  { intros Hb. destruct (before_In _ _ _ Hb) as [H1 H2].
    rewrite keys_Counter_In in H1, H2.
    rewrite !first_index_app_l by assumption. now apply IH. }
  destruct (in_dec str_eq_dec k (keys (Counter b))) as [Hin | Hout]; [auto|].
  apply before_app_single in H. destruct H as [Hb | [-> H1]]; [auto|].
  rewrite keys_Counter_In in H1.
  rewrite first_index_app_l by assumption.
  rewrite first_index_new by (now rewrite <- keys_Counter_In).
  now apply first_index_lt.
Qed.

(* ================================================================== *)
(** ** The descending stable sort *)

Lemma insert_desc_perm x l : Permutation (insert_desc x l) (x :: l).
Proof.
  induction l as [|y r IH]; simpl; [reflexivity|].
  destruct (snd x <? snd y); [|reflexivity].
  rewrite IH. apply perm_swap.
Qed.

Lemma sorted_desc_perm l : Permutation (sorted_desc l) l.
Proof.
  induction l as [|x l IH]; simpl; [reflexivity|].
  rewrite insert_desc_perm. now constructor.
Qed.

Lemma insert_desc_sorted x l :
  StronglySorted count_ge l -> StronglySorted count_ge (insert_desc x l).
Proof.
  induction l as [|y r IH]; simpl; intros H.
  - repeat constructor.
  - inversion H as [|? ? Hr Hall]; subst.
    destruct (snd x <? snd y) eqn:E.
    + apply Nat.ltb_lt in E. constructor; [auto|].
      rewrite Forall_forall in *. intros z Hz.
      apply (Permutation_in _ (insert_desc_perm x r)) in Hz.
      destruct Hz as [<- | Hz]; [unfold count_ge; lia | auto].
    + apply Nat.ltb_ge in E. constructor; [exact H|].
      constructor; [exact E|].
      rewrite Forall_forall in *. intros z Hz. specialize (Hall z Hz).
      unfold count_ge in *. lia.
Qed.

Lemma sorted_desc_sorted l : StronglySorted count_ge (sorted_desc l).
Proof.
  induction l as [|x l IH]; simpl; [constructor | now apply insert_desc_sorted].
Qed.

(** Stability: an entry is never moved across an entry of the same count. *)
Lemma insert_desc_before a x y l :
  snd x = snd y -> before x y (insert_desc a l) ->
  before x y l \/ (x = a /\ In y l).
Proof.
  intros Heq. induction l as [|z r IH]; simpl.
  - intros [[_ []] | []].
  - destruct (snd a <? snd z) eqn:E; simpl.
    + apply Nat.ltb_lt in E. intros [[-> Hy] | H].
      * apply (Permutation_in _ (insert_desc_perm a r)) in Hy.
        destruct Hy as [<- | Hy]; [lia | auto].
      * destruct (IH H) as [Hb | [-> Hy]]; auto.
    + intros [[-> Hy] | H]; [right; auto|].
      left. exact H.
Qed.

Lemma sorted_desc_before x y l :
  snd x = snd y -> before x y (sorted_desc l) -> before x y l.
Proof.
  intros Heq. induction l as [|a l IH]; simpl; [tauto|].
  intros H. apply insert_desc_before in H; [|exact Heq].
  destruct H as [Hb | [-> Hy]]; [right; auto|].
  left. split; [reflexivity|].
  eapply Permutation_in; [apply sorted_desc_perm | exact Hy].
Qed.

(* ================================================================== *)
(** ** The ranker: [Counter(bucket).most_common(top_n)] *)

(** C1.  For every bucket and every integer [top_n >= 0], the ranking
    [Counter(bucket).most_common(top_n)] has [min(top_n, number of distinct
    tokens)] entries, in non-increasing order of count; each entry carries
    the multiplicity of its token in the bucket, which is at least 1; the
    counts add up to at most the size of the bucket; and [top_n = 0] gives the
    empty ranking. *)
Theorem most_common_ranking (b : list str) (top_n : Z) :
  (0 <= top_n)%Z ->
  let r := most_common top_n (Counter b) in
  Z.of_nat (List.length r) = Z.min top_n (Z.of_nat (distinct_count b))
  /\ StronglySorted count_ge r
  /\ (forall t c, In (t, c) r -> c = multiplicity b t /\ 1 <= c)
  /\ list_sum (map snd r) <= List.length b
  /\ most_common 0 (Counter b) = [].
Proof.
  intros Hn r. unfold r, most_common. repeat split.
  - rewrite length_firstn, (Permutation_length (sorted_desc_perm _)),
      length_Counter. lia.
  - apply StronglySorted_firstn, sorted_desc_sorted.
  - apply In_firstn in H.
    apply (Permutation_in _ (sorted_desc_perm _)) in H.
    now apply Counter_entry in H.
  - apply In_firstn in H.
    apply (Permutation_in _ (sorted_desc_perm _)) in H.
    now apply Counter_entry in H.
  - rewrite firstn_map_snd.
    etransitivity; [apply list_sum_firstn|].
    rewrite (list_sum_perm _ _ (Permutation_map snd (sorted_desc_perm _))).
    now rewrite list_sum_Counter.
Qed.

Lemma most_common_ranking_witness :
  (0 <= 2)%Z /\
  let b := map lit ["a"; "b"; "a"; "c"]%string in
  let r := most_common 2 (Counter b) in
  Z.of_nat (List.length r) = Z.min 2 (Z.of_nat (distinct_count b))
  /\ StronglySorted count_ge r
  /\ (forall t c, In (t, c) r -> c = multiplicity b t /\ 1 <= c)
  /\ list_sum (map snd r) <= List.length b
  /\ most_common 0 (Counter b) = [].
Proof.
  split; [lia|].
  apply (most_common_ranking (map lit ["a"; "b"; "a"; "c"]%string) 2). lia.
Defined.

Lemma ranking_ties_forward b top_n i j t1 t2 c :
  i < j ->
  nth_error (most_common top_n (Counter b)) i = Some (t1, c) ->
  nth_error (most_common top_n (Counter b)) j = Some (t2, c) ->
  first_index t1 b < first_index t2 b.
Proof.
  unfold most_common. intros Hij Hi Hj.
  apply nth_error_firstn_Some in Hi, Hj.
  apply keys_Counter_order.
  apply (before_map fst (t1, c) (t2, c)).
  apply sorted_desc_before; [reflexivity|].
  eapply nth_error_before; eassumption.
Qed.

(** C5.  In the ranking of a bucket, two entries of equal count stand in the
    order in which their tokens first occur in the bucket: the entry at
    position [i] comes before the entry at position [j] exactly when its
    token is first met earlier. *)
Theorem most_common_ties_first_seen b top_n i j t1 t2 c :
  nth_error (most_common top_n (Counter b)) i = Some (t1, c) ->
  nth_error (most_common top_n (Counter b)) j = Some (t2, c) ->
  (i < j <-> first_index t1 b < first_index t2 b).
Proof.
  intros Hi Hj. split.
  - intros Hij. eapply ranking_ties_forward; eassumption.
  - intros Hfi. destruct (lt_eq_lt_dec i j) as [[Hlt | Heq] | Hgt].
    + exact Hlt.
    + subst j. rewrite Hi in Hj. injection Hj as ->. lia.
    + pose proof (ranking_ties_forward _ _ _ _ _ _ _ Hgt Hj Hi). lia.
Qed.

Lemma most_common_ties_first_seen_witness :
  let b := map lit ["b"; "a"; "c"; "a"; "b"; "d"]%string in
  nth_error (most_common 3 (Counter b)) 0 = Some (lit "b", 2)
  /\ nth_error (most_common 3 (Counter b)) 1 = Some (lit "a", 2)
  /\ (0 < 1 <-> first_index (lit "b") b < first_index (lit "a") b).
Proof.
  intros b.
  assert (H0 : nth_error (most_common 3 (Counter b)) 0 = Some (lit "b", 2))
    by reflexivity.
  assert (H1 : nth_error (most_common 3 (Counter b)) 1 = Some (lit "a", 2))
    by reflexivity.
  exact (conj H0 (conj H1 (most_common_ties_first_seen b 3 0 1 _ _ 2 H0 H1))).
Defined.

(* ================================================================== *)
(** ** Character classes *)

Lemma letter_is_word c : Re.class_azAZ c = true -> Re.word_char c = true.
Proof.
  unfold Re.class_azAZ, Re.word_char, py_isalnum.
  destruct (ascii_lower c), (ascii_upper c); simpl; auto; discriminate.
Qed.

Lemma nonword_not_letter c : Re.word_char c = false -> Re.class_azAZ c = false.
Proof.
  intros H. destruct (Re.class_azAZ c) eqn:E; [|reflexivity].
  apply letter_is_word in E. congruence.
Qed.

(* ================================================================== *)
(** ** Greedy prefixes and runs *)

Section Greedy.

Variable cls : ascii -> bool.

Lemma greedy_le_length s : Re.greedy cls s <= List.length s.
Proof.
  induction s as [|c r IH]; simpl; [lia|]. destruct (cls c); simpl; lia.
Qed.

Lemma drop_while_skipn s : drop_while cls s = skipn (Re.greedy cls s) s.
Proof.
  induction s as [|c r IH]; simpl; [reflexivity|].
  destruct (cls c); simpl; auto.
Qed.

Lemma forallb_firstn_greedy s : forallb cls (firstn (Re.greedy cls s) s) = true.
Proof.
  induction s as [|c r IH]; simpl; [reflexivity|].
  destruct (cls c) eqn:E; simpl; [now rewrite E | reflexivity].
Qed.

Lemma nth_error_greedy s c :
  nth_error s (Re.greedy cls s) = Some c -> cls c = false.
Proof.
  induction s as [|x r IH]; simpl; [discriminate|].
  destruct (cls x) eqn:E; simpl; [exact IH | congruence].
Qed.

Lemma nth_error_below_greedy s : forall k,
  k < Re.greedy cls s -> exists c, nth_error s k = Some c /\ cls c = true.
Proof.
  induction s as [|x r IH]; simpl; intros k Hk; [lia|].
  destruct (cls x) eqn:E; [|lia].
  destruct k as [|k]; simpl; [eauto | apply IH; lia].
Qed.

Lemma greedy_stops s k :
  k <= Re.greedy cls s ->
  (forall c, nth_error s k = Some c -> cls c = false) ->
  Re.greedy cls s = k.
Proof.
  intros Hle Hstop.
  destruct (Nat.eq_dec (Re.greedy cls s) k) as [|Hne]; [assumption|].
  destruct (nth_error_below_greedy s k) as (c & Hc & Hcls); [lia|].
  specialize (Hstop c Hc). congruence.
Qed.

Lemma runs_from_greedy s : forall cur,
  runs_from cls cur s =
  runs_from cls (cur ++ firstn (Re.greedy cls s) s) (skipn (Re.greedy cls s) s).
Proof.
  induction s as [|c r IH]; intros cur; simpl.
  - now rewrite app_nil_r.
  - destruct (cls c) eqn:E; simpl.
    + rewrite IH, <- app_assoc. reflexivity.
    + now rewrite app_nil_r, E.
Qed.

Lemma runs_from_stopped cur s :
  Re.greedy cls s = 0 -> runs_from cls cur s = close_run cur ++ runs cls s.
Proof.
  unfold runs. destruct s as [|c r]; simpl.
  - now rewrite app_nil_r.
  - destruct (cls c); [discriminate | reflexivity].
Qed.

Lemma greedy_skipn_greedy s : Re.greedy cls (skipn (Re.greedy cls s) s) = 0.
Proof.
  induction s as [|c r IH]; simpl; [reflexivity|].
  destruct (cls c) eqn:E; simpl; [exact IH | now rewrite E].
Qed.

(** The first run of a text, then the runs of what follows it. *)
Lemma runs_first s :
  runs cls s =
  close_run (firstn (Re.greedy cls s) s) ++ runs cls (skipn (Re.greedy cls s) s).
Proof.
  unfold runs at 1. rewrite runs_from_greedy. simpl.
  apply runs_from_stopped, greedy_skipn_greedy.
Qed.

Lemma runs_skip c r : cls c = false -> runs cls (c :: r) = runs cls r.
Proof. intros E. unfold runs. simpl. now rewrite E. Qed.

End Greedy.

Lemma greedy_mono (p q : ascii -> bool) s :
  (forall c, p c = true -> q c = true) -> Re.greedy p s <= Re.greedy q s.
Proof.
  intros Hpq. induction s as [|c r IH]; simpl; [lia|].
  destruct (p c) eqn:E; [rewrite (Hpq c E); lia | lia].
Qed.

Lemma hd_error_skipn {A : Type} (s : list A) : forall k,
  hd_error (skipn k s) = nth_error s k.
Proof.
  induction s as [|c r IH]; intros [|k]; simpl; auto.
Qed.

Lemma forallb_firstn_bound (cls : ascii -> bool) s : forall k,
  k <= List.length s -> forallb cls (firstn k s) = true -> k <= Re.greedy cls s.
Proof.
  induction s as [|c r IH]; intros [|k]; simpl; try lia.
  intros Hk H. apply andb_prop in H. destruct H as [Hc Hr].
  rewrite Hc. apply IH in Hr; lia.
Qed.

(* ================================================================== *)
(** ** The scan of a subject *)

Section ScanFacts.

Variable pattern : option ascii -> str -> option nat.

Lemma scan_skip s : forall k prev,
  S k <= List.length s ->
  Re.scan pattern (S k) prev s = Re.scan pattern 0 (nth_error s k) (skipn (S k) s).
Proof.
  induction s as [|c r IH]; intros k prev Hk; simpl in Hk; [lia|].
  destruct k as [|k]; [reflexivity|].
  change (Re.scan pattern (S (S k)) prev (c :: r))
    with (Re.scan pattern (S k) (Some c) r).
  rewrite IH by lia. reflexivity.
Qed.

Lemma scan_match prev s k :
  pattern prev s = Some (S k) -> S k <= List.length s ->
  Re.scan pattern 0 prev s =
  Re.Matched (firstn (S k) s) :: Re.scan pattern 0 (nth_error s k) (skipn (S k) s).
Proof.
  intros Hp Hk. destruct s as [|c r]; [simpl in Hk; lia|].
  cbn [Re.scan]. rewrite Hp. f_equal.
  destruct k as [|k]; [reflexivity|].
  simpl in Hk. rewrite scan_skip by lia. reflexivity.
Qed.

Lemma scan_nomatch prev c r :
  pattern prev (c :: r) = None ->
  Re.scan pattern 0 prev (c :: r) = Re.Literal c :: Re.scan pattern 0 (Some c) r.
Proof. intros Hp. cbn [Re.scan]. now rewrite Hp. Qed.

End ScanFacts.

(* ================================================================== *)
(** ** The Latin tokenizer: [re.findall(r'\b[a-zA-Z]+\b', ...)] *)

Lemma give_back_below s : forall k,
  k < Re.greedy Re.class_azAZ s -> Re.give_back k s = None.
Proof.
  induction k as [|k IH]; intros Hk; [reflexivity|].
  cbn [Re.give_back]. unfold Re.word_boundary. rewrite hd_error_skipn.
  destruct (nth_error_below_greedy Re.class_azAZ s k) as (a & -> & Ha); [lia|].
  destruct (nth_error_below_greedy Re.class_azAZ s (S k)) as (b & -> & Hb);
    [lia|].
  change (Re.word_opt (Some a)) with (Re.word_char a).
  change (Re.word_opt (Some b)) with (Re.word_char b).
  rewrite (letter_is_word _ Ha), (letter_is_word _ Hb). cbn [xorb].
  apply IH. lia.
Qed.

(** After the whole run of letters the pattern needs a boundary; giving
    letters back never helps, since two letters have no boundary between
    them. *)
Lemma give_back_greedy s :
  Re.give_back (Re.greedy Re.class_azAZ s) s =
  if (0 <? Re.greedy Re.class_azAZ s)
     && negb (Re.word_opt (nth_error s (Re.greedy Re.class_azAZ s)))
  then Some (Re.greedy Re.class_azAZ s) else None.
Proof.
  destruct (Re.greedy Re.class_azAZ s) as [|g] eqn:E; [reflexivity|].
  cbn [Re.give_back]. unfold Re.word_boundary. rewrite hd_error_skipn.
  destruct (nth_error_below_greedy Re.class_azAZ s g) as (a & -> & Ha); [lia|].
  change (Re.word_opt (Some a)) with (Re.word_char a).
  rewrite (letter_is_word _ Ha).
  replace (0 <? S g) with true by reflexivity.
  destruct (Re.word_opt (nth_error s (S g))); cbn [xorb negb andb];
    [|reflexivity].
  apply give_back_below. lia.
Qed.

Lemma matches_Matched m ps : Re.matches (Re.Matched m :: ps) = m :: Re.matches ps.
Proof. reflexivity. Qed.

Lemma matches_Literal c ps : Re.matches (Re.Literal c :: ps) = Re.matches ps.
Proof. reflexivity. Qed.

Lemma pat_palabra_inside prev s :
  Re.word_opt prev = true -> Re.pat_palabra prev s = None.
Proof.
  intros Eprev. unfold Re.pat_palabra, Re.word_boundary. rewrite Eprev.
  destruct s as [|c r]; cbn [hd_error Re.word_opt xorb negb].
  - reflexivity.
  - destruct (Re.word_char c) eqn:Ec; [reflexivity|].
    cbn [Re.greedy]. now rewrite (nonword_not_letter _ Ec).
Qed.

Lemma pat_palabra_outside prev c r :
  Re.word_opt prev = false ->
  Re.pat_palabra prev (c :: r) =
  if Re.word_char c
  then Re.give_back (Re.greedy Re.class_azAZ (c :: r)) (c :: r)
  else None.
Proof.
  intros Eprev. unfold Re.pat_palabra, Re.word_boundary. rewrite Eprev.
  cbn [hd_error Re.word_opt xorb]. now destruct (Re.word_char c).
Qed.

(** From a position outside a word the scan finds the words made of letters
    only; from inside a word it first passes the rest of that word. *)
Lemma palabra_scan : forall s prev,
  Re.matches (Re.scan Re.pat_palabra 0 prev s) =
  filter all_letters
    (runs Re.word_char
       (if Re.word_opt prev then drop_while Re.word_char s else s)).
Proof.
  induction s as [s IH] using length_ind. intros prev.
  destruct s as [|c r]; [now destruct (Re.word_opt prev)|].
  assert (Hr : List.length r < List.length (c :: r)) by (simpl; lia).
  destruct (Re.word_opt prev) eqn:Eprev.
    + (* inside a word: nothing matches before the word is over *)
      rewrite (scan_nomatch _ _ _ _ (pat_palabra_inside prev _ Eprev)).
      rewrite matches_Literal, (IH r Hr (Some c)).
      cbn [Re.word_opt drop_while].
      destruct (Re.word_char c) eqn:Ec; [reflexivity|].
      now rewrite runs_skip.
    + pose proof (pat_palabra_outside prev c r Eprev) as Hpat.
      destruct (Re.word_char c) eqn:Ec.
      * (* a word starts here *)
        assert (Hdrop : drop_while Re.word_char r =
                        skipn (Re.greedy Re.word_char (c :: r)) (c :: r)).
        { rewrite <- drop_while_skipn. cbn [drop_while]. now rewrite Ec. }
        assert (Hw : 0 < Re.greedy Re.word_char (c :: r))
          by (cbn [Re.greedy]; rewrite Ec; lia).
        remember (c :: r) as s eqn:Es.
        assert (Hgw : Re.greedy Re.class_azAZ s <= Re.greedy Re.word_char s)
          by (apply greedy_mono, letter_is_word).
        pose proof (greedy_le_length Re.word_char s) as Hwlen.
        rewrite give_back_greedy in Hpat.
        rewrite (runs_first Re.word_char s).
        assert (Hclose : close_run (firstn (Re.greedy Re.word_char s) s) =
                         [firstn (Re.greedy Re.word_char s) s]).
        { destruct (firstn (Re.greedy Re.word_char s) s) eqn:Ew; [|reflexivity].
          apply (f_equal (@List.length _)) in Ew.
          rewrite length_firstn in Ew. cbn [List.length] in Ew. lia. }
        rewrite Hclose. cbn [app filter].
        destruct ((0 <? Re.greedy Re.class_azAZ s)
                  && negb (Re.word_opt
                             (nth_error s (Re.greedy Re.class_azAZ s))))
          eqn:Ecase.
        -- (* the run of letters is the whole word: a token *)
           apply andb_prop in Ecase. destruct Ecase as [Hpos Hend].
           apply Nat.ltb_lt in Hpos. apply negb_true_iff in Hend.
           assert (Heq : Re.greedy Re.word_char s = Re.greedy Re.class_azAZ s).
           { apply greedy_stops; [exact Hgw|].
             intros a Ha. now rewrite Ha in Hend. }
           pose proof (greedy_le_length Re.class_azAZ s) as Hlen.
           pose proof (forallb_firstn_greedy Re.class_azAZ s) as Hall.
           pose proof (greedy_skipn_greedy Re.word_char s) as Hstop.
           rewrite Heq in Hstop |- *.
           fold (all_letters (firstn (Re.greedy Re.class_azAZ s) s)) in Hall.
           rewrite Hall.
           destruct (nth_error_below_greedy Re.class_azAZ s
                       (pred (Re.greedy Re.class_azAZ s)))
             as (a & Ha & Hca); [lia|].
           remember (Re.greedy Re.class_azAZ s) as gl eqn:Egl.
           destruct gl as [|g]; [lia|]. cbn [pred] in Ha.
           rewrite (scan_match _ _ _ _ Hpat Hlen), matches_Matched. f_equal.
           assert (Hshort : List.length (skipn (S g) s) < List.length s)
             by (rewrite length_skipn; lia).
           rewrite (IH _ Hshort), Ha.
           change (Re.word_opt (Some a)) with (Re.word_char a).
           rewrite (letter_is_word _ Hca), drop_while_skipn, Hstop.
           reflexivity.
        -- (* no boundary after the letters: the whole word is passed *)
           assert (Hnot : all_letters (firstn (Re.greedy Re.word_char s) s)
                          = false).
           { destruct (all_letters (firstn (Re.greedy Re.word_char s) s))
               eqn:Eall; [|reflexivity].
             exfalso.
             apply forallb_firstn_bound in Eall; [|exact Hwlen].
             assert (Heq : Re.greedy Re.class_azAZ s = Re.greedy Re.word_char s)
               by lia.
             rewrite Heq in Ecase.
             apply andb_false_iff in Ecase. destruct Ecase as [Hz | Hend].
             - apply Nat.ltb_ge in Hz. lia.
             - apply negb_false_iff in Hend.
               destruct (nth_error s (Re.greedy Re.word_char s)) as [a|] eqn:Ea;
                 [|discriminate].
               apply nth_error_greedy in Ea. simpl in Hend. congruence. }
           rewrite Hnot, <- Hdrop. subst s.
           rewrite (scan_nomatch _ _ _ _ Hpat), matches_Literal.
           rewrite (IH r Hr (Some c)).
           change (Re.word_opt (Some c)) with (Re.word_char c).
           now rewrite Ec.
      * (* between words *)
        rewrite (scan_nomatch _ _ _ _ Hpat), matches_Literal.
        rewrite (IH r Hr (Some c)).
        change (Re.word_opt (Some c)) with (Re.word_char c).
        rewrite Ec. now rewrite runs_skip.
Qed.

(** C3 (amended).  The Latin tokenizer lowercases the text and extracts, in
    order of appearance, exactly those maximal runs of word characters
    (letters, digits and the underscore, the class [\w]) that are made of
    ASCII letters only: a run of ASCII letters that touches a digit, an
    underscore or a non-ASCII letter gives no token. *)
Theorem palabras_raw_letter_words texto :
  palabras_raw texto =
  filter all_letters (runs Re.word_char (py_lower texto)).
Proof.
  unfold palabras_raw, Re.findall.
  now rewrite (palabra_scan _ None).
Qed.

(** C3 as stated fails: in ["ab1"] the letters [ab] are a maximal run of
    ASCII letters, and the digit after them is not a boundary for [\b]. *)
Lemma palabras_raw_digit_counterexample :
  letter_runs (lit "ab1") = [lit "ab"] /\ palabras_raw (lit "ab1") = [].
Proof. split; reflexivity. Qed.

(* ================================================================== *)
(** ** Substitution *)

Lemma replace_Matched repl m ps :
  Re.replace repl (Re.Matched m :: ps) = repl ++ Re.replace repl ps.
Proof. reflexivity. Qed.

Lemma replace_Literal repl c ps :
  Re.replace repl (Re.Literal c :: ps) = c :: Re.replace repl ps.
Proof. reflexivity. Qed.

Lemma is_char_eq n c : is_char n c = true -> c = ascii_of_N n.
Proof.
  unfold is_char, code. intros H. apply N.eqb_eq in H.
  rewrite <- H. symmetry. apply ascii_N_embedding.
Qed.

Lemma bracket_not_space c :
  is_char 91 c || is_char 93 c = true -> py_isspace c = false.
Proof.
  intros H. apply orb_prop in H.
  destruct H as [H | H]; apply is_char_eq in H; subst c; reflexivity.
Qed.

Lemma space_not_bracket c :
  py_isspace c = true -> is_char 91 c = false /\ is_char 93 c = false.
Proof.
  intros H. pose proof (bracket_not_space c) as Hb.
  destruct (is_char 91 c), (is_char 93 c); simpl in Hb; auto;
    rewrite Hb in H by reflexivity; discriminate.
Qed.

(** *** [re.sub(r"\[.*?\]", "", s)] *)

Lemma scan_referencia_prev s k p p' :
  Re.scan Re.pat_referencia k p s = Re.scan Re.pat_referencia k p' s.
Proof. destruct s, k; reflexivity. Qed.

Lemma lazy_close_bound s : forall k, Re.lazy_close s = Some k -> k <= List.length s.
Proof.
  induction s as [|c r IH]; simpl; intros k; [discriminate|].
  destruct (is_char 93 c); [intros [= <-]; lia|].
  destruct (is_char 10 c); [discriminate|].
  destruct (Re.lazy_close r) as [j|]; simpl; [|discriminate].
  intros [= <-]. specialize (IH j eq_refl). lia.
Qed.

Lemma sub_referencia_match c r k :
  is_char 91 c = true -> Re.lazy_close r = Some k ->
  Re.sub Re.pat_referencia [] (c :: r) = Re.sub Re.pat_referencia [] (skipn k r).
Proof.
  intros Hc Hk. unfold Re.sub.
  assert (Hp : Re.pat_referencia None (c :: r) = Some (S k))
    by (simpl; now rewrite Hc, Hk).
  pose proof (lazy_close_bound _ _ Hk) as Hlen.
  rewrite (scan_match _ _ _ _ Hp) by (simpl; lia).
  rewrite replace_Matched. simpl app.
  now rewrite (scan_referencia_prev _ 0 _ None).
Qed.

Lemma sub_referencia_pass c r :
  Re.pat_referencia None (c :: r) = None ->
  Re.sub Re.pat_referencia [] (c :: r) = c :: Re.sub Re.pat_referencia [] r.
Proof.
  intros Hp. unfold Re.sub.
  rewrite (scan_nomatch _ _ _ _ Hp), replace_Literal.
  now rewrite (scan_referencia_prev _ 0 _ None).
Qed.

Lemma pat_referencia_cases c r :
  (exists k, is_char 91 c = true /\ Re.lazy_close r = Some k)
  \/ (Re.pat_referencia None (c :: r) = None
      /\ (is_char 91 c = true -> Re.lazy_close r = None)).
Proof.
  simpl. destruct (is_char 91 c); [|right; split; [reflexivity | discriminate]].
  destruct (Re.lazy_close r) as [k|]; [left; eauto | right; auto].
Qed.

Lemma has_reference_cons c r :
  has_reference (c :: r) =
  match Re.pat_referencia None (c :: r) with
  | Some _ => true
  | None => has_reference r
  end.
Proof.
  unfold has_reference, Re.search. cbn [Re.scan].
  destruct (pat_referencia_cases c r) as [(k & Hc & Hk) | [Hp _]].
  - simpl. now rewrite Hc, Hk.
  - rewrite Hp, matches_Literal.
    now rewrite (scan_referencia_prev _ 0 _ None).
Qed.

(** Where no closing bracket follows on the line, none follows after the
    substitution either: the line is passed unchanged. *)
Lemma lazy_close_sub r :
  Re.lazy_close r = None ->
  Re.lazy_close (Re.sub Re.pat_referencia [] r) = None.
Proof.
  induction r as [|x r IH]; [reflexivity|].
  intros H. cbn [Re.lazy_close] in H.
  destruct (is_char 93 x) eqn:E93; [discriminate|].
  assert (Hp : Re.pat_referencia None (x :: r) = None).
  { simpl. destruct (is_char 91 x) eqn:E91; [|reflexivity].
    destruct (is_char 10 x) eqn:E10.
    - apply is_char_eq in E91, E10. rewrite E91 in E10. discriminate.
    - destruct (Re.lazy_close r); [discriminate | reflexivity]. }
  rewrite (sub_referencia_pass _ _ Hp). cbn [Re.lazy_close]. rewrite E93.
  destruct (is_char 10 x); [reflexivity|].
  destruct (Re.lazy_close r); [discriminate|].
  now rewrite IH.
Qed.

(** The substitution leaves no match of its own pattern. *)
Lemma sub_referencia_clean s :
  has_reference (Re.sub Re.pat_referencia [] s) = false.
Proof.
  induction s as [s IH] using length_ind.
  destruct s as [|c r]; [reflexivity|].
  destruct (pat_referencia_cases c r) as [(k & Hc & Hk) | [Hp Hopen]].
  - rewrite (sub_referencia_match _ _ _ Hc Hk). apply IH.
    rewrite length_skipn. simpl. lia.
  - rewrite (sub_referencia_pass _ _ Hp), has_reference_cons.
    rewrite IH by (simpl; lia).
    simpl. destruct (is_char 91 c); [|reflexivity].
    now rewrite (lazy_close_sub r (Hopen eq_refl)).
Qed.

Lemma sub_referencia_In s x :
  In x (Re.sub Re.pat_referencia [] s) -> In x s.
Proof.
  induction s as [s IH] using length_ind.
  destruct s as [|c r]; [tauto|].
  destruct (pat_referencia_cases c r) as [(k & Hc & Hk) | [Hp _]].
  - rewrite (sub_referencia_match _ _ _ Hc Hk). intros H.
    apply IH in H; [|rewrite length_skipn; simpl; lia].
    right. eapply In_skipn; eassumption.
  - rewrite (sub_referencia_pass _ _ Hp). intros [-> | H]; [now left|].
    right. apply (IH r); [simpl; lia | exact H].
Qed.

(** *** [re.sub(r"\s+", " ", s)] *)

Lemma scan_espacios_prev s k p p' :
  Re.scan Re.pat_espacios k p s = Re.scan Re.pat_espacios k p' s.
Proof. destruct s, k; reflexivity. Qed.

Lemma sub_espacios_space c r :
  py_isspace c = true ->
  Re.sub Re.pat_espacios (lit " ") (c :: r) =
  " "%char :: Re.sub Re.pat_espacios (lit " ") (drop_while py_isspace r).
Proof.
  intros Hc. unfold Re.sub.
  assert (Hp : Re.pat_espacios None (c :: r) =
               Some (S (Re.greedy py_isspace r)))
    by (unfold Re.pat_espacios; cbn [Re.greedy]; now rewrite Hc).
  pose proof (greedy_le_length py_isspace r) as Hlen.
  rewrite (scan_match _ _ _ _ Hp) by (simpl; lia).
  rewrite replace_Matched. cbn [skipn]. rewrite <- drop_while_skipn.
  now rewrite (scan_espacios_prev _ 0 _ None).
Qed.

Lemma sub_espacios_other c r :
  py_isspace c = false ->
  Re.sub Re.pat_espacios (lit " ") (c :: r) =
  c :: Re.sub Re.pat_espacios (lit " ") r.
Proof.
  intros Hc. unfold Re.sub.
  assert (Hp : Re.pat_espacios None (c :: r) = None)
    by (unfold Re.pat_espacios; cbn [Re.greedy]; now rewrite Hc).
  rewrite (scan_nomatch _ _ _ _ Hp), replace_Literal.
  now rewrite (scan_espacios_prev _ 0 _ None).
Qed.

Lemma drop_while_head p s c r : drop_while p s = c :: r -> p c = false.
Proof.
  induction s as [|x s IH]; simpl; [discriminate|].
  destruct (p x) eqn:E; [exact IH | intros [= <- _]; exact E].
Qed.

Lemma drop_while_length p s : List.length (drop_while p s) <= List.length s.
Proof.
  induction s as [|x s IH]; simpl; [lia|]. destruct (p x); simpl; lia.
Qed.

Lemma drop_while_keep_last p l h :
  p h = false -> drop_while p (l ++ [h]) = drop_while p l ++ [h].
Proof.
  intros Hh. induction l as [|x l IH]; simpl; [now rewrite Hh|].
  destruct (p x); [exact IH | reflexivity].
Qed.

Lemma drop_while_suffix p s : exists pre, s = pre ++ drop_while p s.
Proof.
  induction s as [|x s [pre IH]]; simpl; [now exists []|].
  destruct (p x); [|now exists []].
  exists (x :: pre). simpl. now f_equal.
Qed.

Lemma filter_nonspace_cons c r :
  filter nonspace (c :: r) =
  if py_isspace c then filter nonspace r else c :: filter nonspace r.
Proof. cbn [filter]. unfold nonspace at 1. now destruct (py_isspace c). Qed.

Lemma filter_drop_while_space s :
  filter nonspace (drop_while py_isspace s) = filter nonspace s.
Proof.
  induction s as [|x s IH]; [reflexivity|].
  cbn [drop_while]. rewrite filter_nonspace_cons.
  destruct (py_isspace x) eqn:E; [exact IH|].
  now rewrite filter_nonspace_cons, E.
Qed.

Lemma adjacent_spaces_cons a b r :
  adjacent_spaces (a :: b :: r) =
  (py_isspace a && py_isspace b) || adjacent_spaces (b :: r).
Proof. reflexivity. Qed.

(** Runs of whitespace become single spaces. *)
Lemma sub_espacios_single s :
  adjacent_spaces (Re.sub Re.pat_espacios (lit " ") s) = false.
Proof.
  induction s as [s IH] using length_ind.
  destruct s as [|c r]; [reflexivity|].
  destruct (py_isspace c) eqn:Ec.
  - rewrite (sub_espacios_space _ _ Ec).
    pose proof (drop_while_length py_isspace r) as Hlen.
    pose proof (IH (drop_while py_isspace r)) as Hrest.
    destruct (drop_while py_isspace r) as [|x t] eqn:Ed; [reflexivity|].
    apply drop_while_head in Ed.
    rewrite (sub_espacios_other _ _ Ed) in *.
    rewrite adjacent_spaces_cons, Ed, andb_false_r. simpl orb.
    apply Hrest. simpl in *. lia.
  - rewrite (sub_espacios_other _ _ Ec).
    pose proof (IH r) as Hrest.
    destruct (Re.sub Re.pat_espacios (lit " ") r) as [|x t]; [reflexivity|].
    rewrite adjacent_spaces_cons, Ec. simpl. apply Hrest. simpl. lia.
Qed.

Lemma sub_espacios_nonspace s :
  filter nonspace (Re.sub Re.pat_espacios (lit " ") s) = filter nonspace s.
Proof.
  induction s as [s IH] using length_ind.
  destruct s as [|c r]; [reflexivity|].
  destruct (py_isspace c) eqn:Ec.
  - rewrite (sub_espacios_space _ _ Ec), !filter_nonspace_cons, Ec.
    change (py_isspace " ") with true. cbn iota.
    rewrite IH, filter_drop_while_space; [reflexivity|].
    pose proof (drop_while_length py_isspace r). simpl. lia.
  - rewrite (sub_espacios_other _ _ Ec), !filter_nonspace_cons, Ec.
    f_equal. apply IH. simpl. lia.
Qed.

(** *** [strip] *)

Lemma py_strip_nonspace s : filter nonspace (py_strip s) = filter nonspace s.
Proof.
  unfold py_strip.
  rewrite filter_rev, filter_drop_while_space, filter_rev, rev_involutive.
  apply filter_drop_while_space.
Qed.

Lemma py_strip_infix s : exists pre post, s = pre ++ py_strip s ++ post.
Proof.
  unfold py_strip.
  destruct (drop_while_suffix py_isspace s) as [pre Hpre].
  destruct (drop_while_suffix py_isspace (rev (drop_while py_isspace s)))
    as [post Hpost].
  exists pre, (rev post).
  rewrite <- rev_app_distr, <- Hpost, rev_involutive. exact Hpre.
Qed.

Lemma py_strip_first s : space_first (py_strip s) = false.
Proof.
  unfold py_strip.
  destruct (drop_while py_isspace s) as [|h t] eqn:E; [reflexivity|].
  apply drop_while_head in E. cbn [rev].
  rewrite (drop_while_keep_last _ _ _ E), rev_app_distr. simpl. exact E.
Qed.

Lemma py_strip_last s : space_last (py_strip s) = false.
Proof.
  unfold space_last, py_strip. rewrite rev_involutive.
  destruct (drop_while py_isspace (rev (drop_while py_isspace s)))
    as [|h t] eqn:E; [reflexivity|].
  apply drop_while_head in E. exact E.
Qed.

(** *** Two whitespace characters in a row, as a decomposition *)

Lemma adjacent_spaces_split s :
  adjacent_spaces s = true <->
  exists l1 a b l2, s = l1 ++ a :: b :: l2
                    /\ py_isspace a = true /\ py_isspace b = true.
Proof.
  split.
  - induction s as [|a r IH]; [discriminate|].
    cbn [adjacent_spaces]. destruct r as [|b t]; [discriminate|].
    intros H. apply orb_prop in H. destruct H as [H | H].
    + apply andb_prop in H. exists [], a, b, t. tauto.
    + destruct (IH H) as (l1 & x & y & l2 & -> & Hx & Hy).
      exists (a :: l1), x, y, l2. auto.
  - intros (l1 & a & b & l2 & -> & Ha & Hb).
    induction l1 as [|x l1 IH].
    + cbn [app adjacent_spaces]. now rewrite Ha, Hb.
    + cbn [app adjacent_spaces].
      destruct (l1 ++ a :: b :: l2) eqn:E; [now destruct l1|].
      rewrite IH. apply orb_true_r.
Qed.

Lemma adjacent_spaces_infix pre s post :
  adjacent_spaces (pre ++ s ++ post) = false -> adjacent_spaces s = false.
Proof.
  intros H. destruct (adjacent_spaces s) eqn:E; [|reflexivity].
  apply adjacent_spaces_split in E.
  destruct E as (l1 & a & b & l2 & -> & Ha & Hb).
  assert (Hall : adjacent_spaces (pre ++ (l1 ++ a :: b :: l2) ++ post) = true).
  { apply adjacent_spaces_split. exists (pre ++ l1), a, b, (l2 ++ post).
    repeat split; auto. now rewrite <- !app_assoc. }
  congruence.
Qed.

(** *** Bracket pairs *)

Lemma closes_after_cons o c r :
  closes_after o (c :: r) =
  if o && is_char 93 c then true else closes_after (o || is_char 91 c) r.
Proof. reflexivity. Qed.

Lemma closes_after_opened s : forall o,
  closes_after o s = true -> closes_after true s = true.
Proof.
  induction s as [|c r IH]; intros o; [discriminate|].
  rewrite !closes_after_cons. simpl.
  destruct (is_char 93 c); [reflexivity|]. rewrite andb_false_r. apply IH.
Qed.

Lemma lazy_close_closes r : forall k,
  Re.lazy_close r = Some k -> closes_after true r = true.
Proof.
  induction r as [|c r IH]; intros k; [discriminate|].
  cbn [Re.lazy_close]. rewrite closes_after_cons. simpl.
  destruct (is_char 93 c); [reflexivity|].
  destruct (is_char 10 c); [discriminate|].
  destruct (Re.lazy_close r) as [j|]; [|discriminate].
  intros _. now apply (IH j).
Qed.

Lemma closes_lazy_close r :
  (forall x, In x r -> is_char 10 x = false) ->
  closes_after true r = true -> exists k, Re.lazy_close r = Some k.
Proof.
  induction r as [|c r IH]; intros Hnl; [discriminate|].
  rewrite closes_after_cons. cbn [Re.lazy_close]. simpl.
  destruct (is_char 93 c); [eauto|].
  rewrite (Hnl c) by now left.
  intros H. destruct IH as [k ->]; [intros x Hx; apply Hnl; now right | exact H|].
  simpl. eauto.
Qed.

Lemma has_reference_pair s : has_reference s = true -> bracket_pair s = true.
Proof.
  unfold bracket_pair. induction s as [|c r IH]; [discriminate|].
  rewrite has_reference_cons, closes_after_cons. simpl.
  destruct (is_char 91 c).
  - destruct (Re.lazy_close r) as [k|] eqn:Ek; simpl.
    + intros _. eapply lazy_close_closes; eassumption.
    + intros H. eapply closes_after_opened. apply IH, H.
  - exact IH.
Qed.

Lemma pair_has_reference s :
  (forall x, In x s -> is_char 10 x = false) ->
  bracket_pair s = true -> has_reference s = true.
Proof.
  unfold bracket_pair. induction s as [|c r IH]; intros Hnl; [discriminate|].
  rewrite has_reference_cons, closes_after_cons. simpl.
  assert (Hr : forall x, In x r -> is_char 10 x = false)
    by (intros x Hx; apply Hnl; now right).
  destruct (is_char 91 c).
  - intros H. destruct (closes_lazy_close r Hr H) as [k ->]. reflexivity.
  - intros H. now apply IH.
Qed.

Lemma closes_after_nonspace s : forall o,
  closes_after o (filter nonspace s) = closes_after o s.
Proof.
  induction s as [|c r IH]; intros o; [reflexivity|].
  rewrite filter_nonspace_cons, (closes_after_cons o c r).
  destruct (py_isspace c) eqn:Ec.
  - destruct (space_not_bracket c Ec) as [-> ->].
    now rewrite andb_false_r, orb_false_r.
  - rewrite closes_after_cons. now rewrite IH.
Qed.

(* ================================================================== *)
(** ** The text cleaner *)

Lemma limpiar_nonspace s :
  filter nonspace (limpiar s) =
  filter nonspace (Re.sub Re.pat_referencia [] s).
Proof.
  unfold limpiar.
  now rewrite py_strip_nonspace, sub_espacios_nonspace.
Qed.

(* ================================================================== *)
(** ** Suffixes *)

Lemma str_eqb_eq a b : str_eqb a b = true <-> a = b.
Proof. unfold str_eqb. destruct (str_eq_dec a b); split; congruence. Qed.

Lemma py_in_In x l : py_in x l = true <-> In x l.
Proof. unfold py_in. destruct (in_dec str_eq_dec x l); split; congruence. Qed.

Lemma py_endswith_suffix s suf :
  py_endswith s suf = true <-> exists pre, s = pre ++ suf.
Proof.
  unfold py_endswith. rewrite andb_true_iff, Nat.leb_le, str_eqb_eq. split.
  - intros [_ H]. exists (firstn (List.length s - List.length suf) s).
    rewrite <- H at 2. symmetry. apply firstn_skipn.
  - intros [pre ->]. rewrite length_app. split; [lia|].
    replace (List.length pre + List.length suf - List.length suf)
      with (List.length pre + 0) by lia.
    rewrite skipn_app, skipn_all2 by lia.
    replace (List.length pre + 0 - List.length pre) with 0 by lia.
    reflexivity.
Qed.

Lemma es_verbo_suffix p :
  es_verbo p = true <->
  exists suf pre, In suf terminaciones_verbos /\ p = pre ++ suf.
Proof.
  unfold es_verbo, py_endswith_any. rewrite existsb_exists. split.
  - intros (suf & Hin & H). apply py_endswith_suffix in H.
    destruct H as [pre ->]. eauto.
  - intros (suf & pre & Hin & ->). exists suf. split; [exact Hin|].
    apply py_endswith_suffix. eauto.
Qed.

Lemma existsb_perm {A : Type} (f : A -> bool) l l' :
  Permutation l l' -> existsb f l = existsb f l'.
Proof.
  induction 1 as [|x l l' _ IH|x y l|l l' l'' _ IH1 _ IH2]; simpl.
  - reflexivity.
  - now rewrite IH.
  - now destruct (f x), (f y).
  - congruence.
Qed.

(* ================================================================== *)
(** ** The Latin buckets *)

Lemma paso_latin_fold l : forall vs ps,
  fold_left paso_latin l (vs, ps) =
  (vs ++ filter es_verbo l, ps ++ filter (fun p => negb (es_verbo p)) l).
Proof.
  induction l as [|p l IH]; intros vs ps; simpl.
  - now rewrite !app_nil_r.
  - destruct (es_verbo p); simpl; rewrite IH, <- app_assoc; reflexivity.
Qed.

Lemma lista_verbos_filter texto :
  lista_verbos texto = filter es_verbo (palabras_filtradas texto).
Proof. unfold lista_verbos, buckets_latin. now rewrite paso_latin_fold. Qed.

Lemma lista_palabras_filter texto :
  lista_palabras texto =
  filter (fun p => negb (es_verbo p)) (palabras_filtradas texto).
Proof. unfold lista_palabras, buckets_latin. now rewrite paso_latin_fold. Qed.

Lemma palabras_filtradas_In texto p :
  In p (palabras_filtradas texto) <->
  In p (palabras_raw texto) /\ ~ In p stopwords_latin /\ 2 < List.length p.
Proof.
  unfold palabras_filtradas.
  rewrite filter_In, andb_true_iff, negb_true_iff, Nat.ltb_lt.
  rewrite <- not_true_iff_false, py_in_In. tauto.
Qed.

Lemma multiplicity_split (f : str -> bool) l p :
  multiplicity l p =
  multiplicity (filter f l) p + multiplicity (filter (fun x => negb (f x)) l) p.
Proof.
  unfold multiplicity. induction l as [|x l IH]; simpl; [reflexivity|].
  destruct (f x); simpl; destruct (str_eq_dec x p); lia.
Qed.

(** C2.  On the Latin path the filtered tokens are the raw tokens longer
    than two characters that are not stopwords; the loop puts each of them,
    occurrence by occurrence, in exactly one bucket: in [lista_verbos] when
    it ends with one of the fixed endings, in [lista_palabras] otherwise.
    No occurrence is dropped and no token is in both buckets. *)
Theorem buckets_latin_partition texto :
  (forall p, In p (palabras_filtradas texto) <->
             In p (palabras_raw texto) /\ ~ In p stopwords_latin
             /\ 2 < List.length p)
  /\ lista_verbos texto = filter es_verbo (palabras_filtradas texto)
  /\ lista_palabras texto =
     filter (fun p => negb (es_verbo p)) (palabras_filtradas texto)
  /\ (forall p, es_verbo p = true <->
                exists suf pre, In suf terminaciones_verbos /\ p = pre ++ suf)
  /\ (forall p, multiplicity (palabras_filtradas texto) p =
                multiplicity (lista_verbos texto) p
                + multiplicity (lista_palabras texto) p)
  /\ (forall p, In p (lista_verbos texto) -> ~ In p (lista_palabras texto)).
Proof.
  split; [apply palabras_filtradas_In|].
  split; [apply lista_verbos_filter|].
  split; [apply lista_palabras_filter|].
  split; [apply es_verbo_suffix|].
  split.
  - intros p. rewrite lista_verbos_filter, lista_palabras_filter.
    apply multiplicity_split.
  - intros p. rewrite lista_verbos_filter, lista_palabras_filter, !filter_In.
    intros [_ Hv] [_ Hp]. rewrite Hv in Hp. discriminate.
Qed.

(** C7.  The cleaned Latin text "puella amat puellam et cantat" is ranked as
    words [puella: 1, puellam: 1] and verbs [amat: 1, cantat: 1]: the
    stopword "et" is filtered out, "amat" and "cantat" end in "at", and the
    two forms of "puella" stay two tokens. *)
Theorem latin_scenario :
  limpiar (lit "puella amat puellam et cantat")
  = lit "puella amat puellam et cantat"
  /\ palabras_filtradas (lit "puella amat puellam et cantat")
     = [lit "puella"; lit "amat"; lit "puellam"; lit "cantat"]
  /\ py_endswith (lit "amat") (lit "at") = true
  /\ py_endswith (lit "cantat") (lit "at") = true
  /\ analizar_texto_latin_basico (lit "puella amat puellam et cantat") 15
     = ([(lit "puella", 1); (lit "puellam", 1)],
        [(lit "amat", 1); (lit "cantat", 1)]).
Proof. repeat split; vm_compute; reflexivity. Qed.

(** C8.  A Latin token longer than two characters that is not a stopword
    and ends in "are" is put in the verbs bucket and not in the words
    bucket, whatever the word is. *)
Theorem sufijo_are_es_verbo texto p :
  In p (palabras_raw texto) ->
  2 < List.length p ->
  ~ In p stopwords_latin ->
  py_endswith p (lit "are") = true ->
  es_verbo p = true
  /\ In p (lista_verbos texto) /\ ~ In p (lista_palabras texto).
Proof.
  intros Hraw Hlen Hstop Hare.
  assert (Hv : es_verbo p = true).
  { unfold es_verbo, py_endswith_any. apply existsb_exists.
    exists (lit "are"). split; [now left | exact Hare]. }
  assert (Hf : In p (palabras_filtradas texto))
    by (apply palabras_filtradas_In; auto).
  split; [exact Hv|].
  rewrite lista_verbos_filter, lista_palabras_filter, !filter_In.
  split; [auto|]. intros [_ H]. rewrite Hv in H. discriminate.
Qed.

(** The false positive the script's comment names: "mare" (the sea). *)
Lemma sufijo_are_es_verbo_witness :
  In (lit "mare") (palabras_raw (lit "mare"))
  /\ 2 < List.length (lit "mare")
  /\ ~ In (lit "mare") stopwords_latin
  /\ py_endswith (lit "mare") (lit "are") = true
  /\ es_verbo (lit "mare") = true
  /\ In (lit "mare") (lista_verbos (lit "mare"))
  /\ ~ In (lit "mare") (lista_palabras (lit "mare")).
Proof.
  assert (Hraw : In (lit "mare") (palabras_raw (lit "mare")))
    by (left; reflexivity).
  assert (Hlen : 2 < List.length (lit "mare")) by (simpl; lia).
  assert (Hstop : ~ In (lit "mare") stopwords_latin)
    by (intros H; apply py_in_In in H; discriminate).
  assert (Hare : py_endswith (lit "mare") (lit "are") = true) by reflexivity.
  exact (conj Hraw (conj Hlen (conj Hstop (conj Hare
           (sufijo_are_es_verbo (lit "mare") (lit "mare")
              Hraw Hlen Hstop Hare))))).
Defined.

(** C9 as stated fails: "at" is one of the endings and a proper suffix of
    "bat", another of them, so the endings are not mutually exclusive. *)
Lemma terminaciones_overlap_counterexample :
  In (lit "at") terminaciones_verbos
  /\ In (lit "bat") terminaciones_verbos
  /\ proper_suffix (lit "at") (lit "bat") = true
  /\ ~ mutually_exclusive terminaciones_verbos.
Proof.
  assert (Ha : In (lit "at") terminaciones_verbos)
    by (apply py_in_In; reflexivity).
  assert (Hb : In (lit "bat") terminaciones_verbos)
    by (apply py_in_In; reflexivity).
  repeat split; try assumption.
  intros H. specialize (H _ _ Ha Hb). discriminate.
Qed.

(** C9 (amended).  Five pairs of the fixed endings overlap: "at" is a proper
    suffix of "bat", "it" of "avit", "evit" and "ivit", and "ant" of "bant".
    The classification does not depend on the order in which the endings are
    checked all the same: a token is a verb when it ends with at least one of
    them, so every reordering of the list classifies every token alike. *)
Theorem terminaciones_order_irrelevant :
  overlaps terminaciones_verbos =
    [(lit "at", lit "bat"); (lit "it", lit "avit"); (lit "it", lit "evit");
     (lit "it", lit "ivit"); (lit "ant", lit "bant")]
  /\ forall p l, Permutation l terminaciones_verbos ->
                 py_endswith_any p l = es_verbo p.
Proof.
  split; [vm_compute; reflexivity|].
  intros p l H. unfold es_verbo, py_endswith_any. now apply existsb_perm.
Qed.

Lemma terminaciones_order_irrelevant_witness :
  Permutation (rev terminaciones_verbos) terminaciones_verbos
  /\ py_endswith_any (lit "amabat") (rev terminaciones_verbos)
     = es_verbo (lit "amabat").
Proof.
  assert (H : Permutation (rev terminaciones_verbos) terminaciones_verbos)
    by (symmetry; apply Permutation_rev).
  exact (conj H (proj2 terminaciones_order_irrelevant (lit "amabat") _ H)).
Defined.

(* ================================================================== *)
(** ** The English buckets *)

Lemma tag_palabra_not_verb tag :
  py_in tag tags_palabra = true -> str_eqb tag (lit "VERB") = false.
Proof.
  intros H. destruct (str_eqb tag (lit "VERB")) eqn:E; [|reflexivity].
  apply str_eqb_eq in E. subst tag. discriminate.
Qed.

Lemma paso_ingles_fold doc : forall ps vs,
  fold_left paso_ingles doc (ps, vs) =
  (ps ++ map lema (filter contribuye_palabra doc),
   vs ++ map lema (filter contribuye_verbo doc)).
Proof.
  induction doc as [|t doc IH]; intros ps vs; cbn [fold_left filter map].
  - now rewrite !app_nil_r.
  - unfold paso_ingles at 2, contribuye_palabra at 1, contribuye_verbo at 1.
    destruct (pasa_filtros t); cbn [andb].
    + destruct (str_eqb (pos_ t) (lit "VERB")) eqn:Ev.
      * destruct (py_in (pos_ t) tags_palabra) eqn:Ep.
        { apply tag_palabra_not_verb in Ep. congruence. }
        rewrite IH. cbn [map]. now rewrite <- app_assoc.
      * change (py_in (pos_ t) [lit "NOUN"; lit "PROPN"; lit "ADJ"])
          with (py_in (pos_ t) tags_palabra).
        destruct (py_in (pos_ t) tags_palabra); rewrite IH; cbn [map];
          now rewrite <- ?app_assoc.
    + apply IH.
Qed.

Lemma pasa_filtros_spec t :
  pasa_filtros t = true <->
  is_alpha t = true /\ is_stop t = false /\ 2 < List.length (text t).
Proof.
  unfold pasa_filtros.
  rewrite !andb_true_iff, negb_true_iff, Nat.ltb_lt. tauto.
Qed.

(** C4 (amended).  With the tagger's tokens given, a token contributes to a
    bucket only if it is alphabetic, is not a stopword and its surface text
    (not its lemma) is longer than two characters.  The verbs bucket is the
    list of lowercased lemmas of the tokens that pass these filters and are
    tagged VERB, the words bucket the same for the tags NOUN, PROPN and ADJ,
    both in the order of the tokens; a token with any other tag contributes
    to neither.  The length of the lemma itself is not checked. *)
Theorem buckets_ingles_spec doc :
  fst (buckets_ingles doc) = map lema (filter contribuye_palabra doc)
  /\ snd (buckets_ingles doc) = map lema (filter contribuye_verbo doc)
  /\ (forall t, contribuye_verbo t = true <->
                is_alpha t = true /\ is_stop t = false
                /\ 2 < List.length (text t) /\ pos_ t = lit "VERB")
  /\ (forall t, contribuye_palabra t = true <->
                is_alpha t = true /\ is_stop t = false
                /\ 2 < List.length (text t) /\ In (pos_ t) tags_palabra)
  /\ (forall e, In e (snd (buckets_ingles doc)) <->
                exists t, In t doc /\ contribuye_verbo t = true /\ e = lema t)
  /\ (forall e, In e (fst (buckets_ingles doc)) <->
                exists t, In t doc /\ contribuye_palabra t = true /\ e = lema t).
Proof.
  unfold buckets_ingles. rewrite paso_ingles_fold. cbn [fst snd app].
  split; [reflexivity|]. split; [reflexivity|].
  split.
  { intros t. unfold contribuye_verbo.
    rewrite andb_true_iff, pasa_filtros_spec, str_eqb_eq. tauto. }
  split.
  { intros t. unfold contribuye_palabra.
    rewrite andb_true_iff, pasa_filtros_spec, py_in_In. tauto. }
  split; intros e; rewrite in_map_iff; setoid_rewrite filter_In;
    split; intros (t & H); exists t; intuition congruence.
Qed.

(** C4 as stated fails: "went" passes the filters (four letters) and puts
    its lemma "go" in the verbs bucket, although "go", the normalized form,
    has two characters only. *)
Lemma buckets_ingles_lemma_counterexample :
  buckets_ingles [token_went] = ([], [lit "go"])
  /\ pasa_filtros token_went = true
  /\ List.length (lema token_went) = 2
  /\ accepted_normalized token_went = false.
Proof. repeat split. Qed.

(* ================================================================== *)
(** ** [main] *)

Lemma py_not_false texto :
  py_not texto = false <-> exists t, texto = Some t /\ t <> [].
Proof.
  destruct texto as [[|c r]|]; simpl; split; try discriminate.
  - intros (t & [= <-] & H). congruence.
  - intros _. exists (c :: r). split; [reflexivity | discriminate].
  - intros _. reflexivity.
  - intros (t & H & _). discriminate.
Qed.

Lemma analizar_texto_ingles_Some nlp_en texto top_n r :
  analizar_texto_ingles nlp_en texto top_n = Some r <->
  (Z.of_nat (List.length texto) <= max_length)%Z
  /\ r = analizar_doc_ingles (nlp_en texto) top_n.
Proof.
  unfold analizar_texto_ingles.
  destruct (max_length <? Z.of_nat (List.length texto))%Z eqn:E.
  - apply Z.ltb_lt in E. split; [discriminate | lia].
  - apply Z.ltb_ge in E. split.
    + intros [= <-]. now split.
    + intros [_ ->]. reflexivity.
Qed.

Lemma analizar_texto_ingles_None nlp_en texto top_n :
  analizar_texto_ingles nlp_en texto top_n = None <->
  (max_length < Z.of_nat (List.length texto))%Z.
Proof.
  unfold analizar_texto_ingles.
  destruct (max_length <? Z.of_nat (List.length texto))%Z eqn:E.
  - apply Z.ltb_lt in E. tauto.
  - apply Z.ltb_ge in E. split; [discriminate | lia].
Qed.

(** [main], by what the two fetches returned. *)
Lemma main_cases
  (web : str -> respuesta) (nlp_en : str -> list Token)
  (excel_ok : Informe -> bool) :
  main web nlp_en excel_ok =
  match snd (scrapear_wikipedia web url_en),
        snd (scrapear_wikipedia web url_la) with
  | Some (a :: r), Some (b :: t) =>
      match analizar_texto_ingles nlp_en (a :: r) 15 with
      | None => ErrorNoCapturado
      | Some en =>
          let informe :=
            {| titulos := (fst (scrapear_wikipedia web url_en),
                           fst (scrapear_wikipedia web url_la));
               contenido_limpio :=
                 (py_slice_to 30000 (a :: r), py_slice_to 30000 (b :: t));
               analisis_ingles := en;
               analisis_latin := analizar_texto_latin_basico (b :: t) 15 |} in
          if excel_ok informe then Guardado informe
          else ErrorAlGuardar informe
      end
  | _, _ => SinScraping
  end.
Proof.
  unfold main.
  destruct (scrapear_wikipedia web url_en) as [titulo_en [[|a r]|]];
    destruct (scrapear_wikipedia web url_la) as [titulo_la [[|b t]|]];
    reflexivity.
Qed.

(** C10.  A fetch that raises gives [(None, None)]; a page without the
    [bodyContent] div gives the empty text; [main] goes past line 163, to
    the analysis, exactly when both fetches gave a non-empty text, and
    reaches the writer only then: otherwise it stops at line 163, with
    nothing analysed or written.  Past the gate, the writer is reached when
    the English text is within [max_length]; a longer text makes the
    pipeline raise, and [main] ends without a report. *)
Theorem main_needs_both_texts
  (web : str -> respuesta) (nlp_en : str -> list Token)
  (excel_ok : Informe -> bool) :
  (forall url, web url = Excepcion ->
               scrapear_wikipedia web url = (None, None))
  /\ (forall url t, web url = Pagina t None ->
                    snd (scrapear_wikipedia web url) = Some [])
  /\ (main web nlp_en excel_ok <> SinScraping <->
      exists t_en t_la,
        snd (scrapear_wikipedia web url_en) = Some t_en /\ t_en <> []
        /\ snd (scrapear_wikipedia web url_la) = Some t_la /\ t_la <> [])
  /\ (forall url, url = url_en \/ url = url_la ->
                  py_not (snd (scrapear_wikipedia web url)) = true ->
                  main web nlp_en excel_ok = SinScraping)
  /\ (forall i,
        main web nlp_en excel_ok = Guardado i
        \/ main web nlp_en excel_ok = ErrorAlGuardar i ->
        exists t_en t_la,
          snd (scrapear_wikipedia web url_en) = Some t_en /\ t_en <> []
          /\ snd (scrapear_wikipedia web url_la) = Some t_la /\ t_la <> []
          /\ analizar_texto_ingles nlp_en t_en 15 = Some (analisis_ingles i)
          /\ analisis_latin i = analizar_texto_latin_basico t_la 15)
  /\ (forall t_en t_la,
        snd (scrapear_wikipedia web url_en) = Some t_en -> t_en <> [] ->
        snd (scrapear_wikipedia web url_la) = Some t_la -> t_la <> [] ->
        ((Z.of_nat (List.length t_en) <= max_length)%Z ->
         exists i,
           main web nlp_en excel_ok
           = (if excel_ok i then Guardado i else ErrorAlGuardar i)
           /\ analisis_ingles i = analizar_doc_ingles (nlp_en t_en) 15
           /\ analisis_latin i = analizar_texto_latin_basico t_la 15)
        /\ ((max_length < Z.of_nat (List.length t_en))%Z ->
            main web nlp_en excel_ok = ErrorNoCapturado)).
Proof.
  split.
  { intros url H. unfold scrapear_wikipedia. now rewrite H. }
  split.
  { intros url t H. unfold scrapear_wikipedia. now rewrite H. }
  rewrite main_cases.
  split.
  { destruct (snd (scrapear_wikipedia web url_en)) as [[|a r]|];
      destruct (snd (scrapear_wikipedia web url_la)) as [[|b t]|];
      split; try congruence;
      try (intros (t_en & t_la & H1 & H2 & H3 & H4); congruence).
    - intros _. exists (a :: r), (b :: t). repeat split; discriminate.
    - intros _. destruct (analizar_texto_ingles nlp_en (a :: r) 15);
        [|discriminate].
      cbv zeta. destruct (excel_ok _); discriminate. }
  split.
  { intros url [-> | ->] H;
      destruct (snd (scrapear_wikipedia web url_en)) as [[|a r]|];
      destruct (snd (scrapear_wikipedia web url_la)) as [[|b t]|];
      try reflexivity; discriminate. }
  split.
  { intros i.
    destruct (snd (scrapear_wikipedia web url_en)) as [[|a r]|];
      try (intros [H | H]; discriminate).
    destruct (snd (scrapear_wikipedia web url_la)) as [[|b t]|];
      try (intros [H | H]; discriminate).
    destruct (analizar_texto_ingles nlp_en (a :: r) 15) as [en|] eqn:Een;
      [|intros [H | H]; discriminate].
    cbv zeta. intros H. exists (a :: r), (b :: t).
    assert (Ei : analisis_ingles i = en
                 /\ analisis_latin i = analizar_texto_latin_basico (b :: t) 15).
    { destruct (excel_ok _); destruct H as [H | H]; try discriminate;
        injection H as <-; now split. }
    destruct Ei as [-> ->].
    repeat split; try reflexivity; try discriminate. exact Een. }
  intros t_en t_la -> Hen -> Hla.
  destruct t_en as [|a r]; [congruence|]. destruct t_la as [|b t]; [congruence|].
  split.
  - intros Hlen.
    assert (E : analizar_texto_ingles nlp_en (a :: r) 15
                = Some (analizar_doc_ingles (nlp_en (a :: r)) 15))
      by now apply analizar_texto_ingles_Some.
    rewrite E. cbv zeta. eexists. split; [reflexivity|]. now split.
  - intros Hlen. apply (analizar_texto_ingles_None nlp_en _ 15) in Hlen.
    now rewrite Hlen.
Qed.

(* ================================================================== *)
(** ** More on the ranker *)

Lemma Counter_has b t : In t b -> In (t, multiplicity b t) (Counter b).
Proof.
  intros H. apply keys_Counter_In in H. unfold keys in H.
  apply in_map_iff in H. destruct H as ([t' c] & Ht & Hin). simpl in Ht.
  subst t'. now rewrite <- (proj1 (Counter_entry _ _ _ Hin)).
Qed.

Lemma StronglySorted_app_inv {A : Type} (R : A -> A -> Prop) l1 : forall l2,
  StronglySorted R (l1 ++ l2) ->
  forall x y, In x l1 -> In y l2 -> R x y.
Proof.
  induction l1 as [|z l1 IH]; intros l2 H x y Hx Hy; [destruct Hx|].
  simpl in H. inversion H as [|? ? Hs Hall]; subst.
  destruct Hx as [-> | Hx].
  - rewrite Forall_forall in Hall. apply Hall, in_or_app. now right.
  - eapply IH; eassumption.
Qed.

Lemma NoDup_firstn_keep {A : Type} (l : list A) : forall n,
  NoDup l -> NoDup (firstn n l).
Proof.
  induction l as [|z l IH]; intros [|n] H; simpl; try constructor.
  - inversion H as [|? ? Hz _]; subst. intros Hin. apply Hz.
    eapply In_firstn; eassumption.
  - apply IH. now inversion H.
Qed.

Lemma keys_sorted_desc_NoDup b : NoDup (keys (sorted_desc (Counter b))).
Proof.
  eapply Permutation_NoDup; [|apply keys_Counter_NoDup].
  symmetry. apply Permutation_map, sorted_desc_perm.
Qed.

(** X1.  The ranking really holds the most frequent tokens: a token of the
    bucket that is left out of the ranking occurs at most as often as every
    token that is in it. *)
Theorem most_common_selects_largest b top_n t c t' :
  In (t, c) (most_common top_n (Counter b)) ->
  In t' b ->
  ~ In t' (keys (most_common top_n (Counter b))) ->
  multiplicity b t' <= c.
Proof.
  unfold most_common. intros Hin Hb Hout.
  pose proof (sorted_desc_sorted (Counter b)) as Hs.
  rewrite <- (firstn_skipn (Z.to_nat top_n)) in Hs.
  apply Counter_has in Hb.
  apply (Permutation_in _ (Permutation_sym (sorted_desc_perm _))) in Hb.
  rewrite <- (firstn_skipn (Z.to_nat top_n)) in Hb.
  apply in_app_or in Hb. destruct Hb as [Hb | Hb].
  - exfalso. apply Hout. unfold keys.
    change t' with (fst (t', multiplicity b t')). now apply in_map.
  - exact (StronglySorted_app_inv _ _ _ Hs _ _ Hin Hb).
Qed.

Lemma most_common_selects_largest_witness :
  let b := map lit ["a"; "b"; "a"; "c"]%string in
  In (lit "a", 2) (most_common 1 (Counter b))
  /\ In (lit "b") b
  /\ ~ In (lit "b") (keys (most_common 1 (Counter b)))
  /\ multiplicity b (lit "b") <= 2.
Proof.
  intros b.
  assert (H1 : In (lit "a", 2) (most_common 1 (Counter b)))
    by (left; reflexivity).
  assert (H2 : In (lit "b") b) by (right; left; reflexivity).
  assert (H3 : ~ In (lit "b") (keys (most_common 1 (Counter b))))
    by (intros [H | []]; discriminate).
  exact (conj H1 (conj H2 (conj H3
           (most_common_selects_largest b 1 _ 2 _ H1 H2 H3)))).
Defined.

(** X2.  When [top_n] is at least the number of distinct tokens nothing is
    cut off: the ranking is a reordering of the whole table, every token of
    the bucket is listed with its multiplicity, and the counts add up to the
    size of the bucket. *)
Theorem most_common_complete b top_n :
  (Z.of_nat (distinct_count b) <= top_n)%Z ->
  Permutation (most_common top_n (Counter b)) (Counter b)
  /\ (forall t, In t b ->
                In (t, multiplicity b t) (most_common top_n (Counter b)))
  /\ list_sum (map snd (most_common top_n (Counter b))) = List.length b.
Proof.
  intros Hn. unfold most_common.
  assert (Hall : firstn (Z.to_nat top_n) (sorted_desc (Counter b))
                 = sorted_desc (Counter b)).
  { apply firstn_all2.
    rewrite (Permutation_length (sorted_desc_perm _)), length_Counter. lia. }
  rewrite Hall. split; [apply sorted_desc_perm|]. split.
  - intros t Ht.
    apply (Permutation_in _ (Permutation_sym (sorted_desc_perm _))).
    now apply Counter_has.
  - rewrite (list_sum_perm _ _ (Permutation_map snd (sorted_desc_perm _))).
    apply list_sum_Counter.
Qed.

Lemma most_common_complete_witness :
  let b := map lit ["a"; "b"; "a"; "c"]%string in
  (Z.of_nat (distinct_count b) <= 15)%Z
  /\ Permutation (most_common 15 (Counter b)) (Counter b)
  /\ (forall t, In t b ->
                In (t, multiplicity b t) (most_common 15 (Counter b)))
  /\ list_sum (map snd (most_common 15 (Counter b))) = List.length b.
Proof.
  intros b.
  assert (H : (Z.of_nat (distinct_count b) <= 15)%Z) by (vm_compute; discriminate).
  exact (conj H (most_common_complete b 15 H)).
Defined.

(** X3.  No token is ranked twice, and only tokens of the bucket are
    ranked. *)
Theorem most_common_distinct_tokens b top_n :
  NoDup (keys (most_common top_n (Counter b)))
  /\ forall t, In t (keys (most_common top_n (Counter b))) -> In t b.
Proof.
  unfold most_common, keys. rewrite <- firstn_map. split.
  - apply NoDup_firstn_keep, keys_sorted_desc_NoDup.
  - intros t Ht. apply In_firstn in Ht. apply keys_Counter_In.
    eapply Permutation_in; [|exact Ht].
    apply Permutation_map, sorted_desc_perm.
Qed.

(* ================================================================== *)
(** ** More on the text cleaner *)

Lemma sub_espacios_plain s c :
  In c (Re.sub Re.pat_espacios (lit " ") s) ->
  py_isspace c = true -> c = " "%char.
Proof.
  induction s as [s IH] using length_ind. destruct s as [|x r]; [intros []|].
  destruct (py_isspace x) eqn:Ex.
  - rewrite (sub_espacios_space _ _ Ex). intros [<- | H] Hc; [reflexivity|].
    apply (IH (drop_while py_isspace r)); auto.
    pose proof (drop_while_length py_isspace r). simpl. lia.
  - rewrite (sub_espacios_other _ _ Ex). intros [<- | H] Hc; [congruence|].
    apply (IH r); auto.
Qed.

Lemma py_strip_In s c : In c (py_strip s) -> In c s.
Proof.
  intros H. destruct (py_strip_infix s) as (pre & post & E). rewrite E.
  apply in_or_app. right. apply in_or_app. now left.
Qed.

Lemma py_strip_length s : List.length (py_strip s) <= List.length s.
Proof.
  destruct (py_strip_infix s) as (pre & post & E). rewrite E at 2.
  rewrite !length_app. lia.
Qed.

Lemma sub_referencia_length s :
  List.length (Re.sub Re.pat_referencia [] s) <= List.length s.
Proof.
  induction s as [s IH] using length_ind. destruct s as [|c r]; [simpl; lia|].
  destruct (pat_referencia_cases c r) as [(k & Hc & Hk) | [Hp _]].
  - rewrite (sub_referencia_match _ _ _ Hc Hk).
    assert (Hs : List.length (skipn k r) < List.length (c :: r))
      by (rewrite length_skipn; simpl; lia).
    specialize (IH _ Hs). lia.
  - rewrite (sub_referencia_pass _ _ Hp). simpl.
    assert (Hs : List.length r < List.length (c :: r)) by (simpl; lia).
    specialize (IH _ Hs). lia.
Qed.

Lemma sub_espacios_length s :
  List.length (Re.sub Re.pat_espacios (lit " ") s) <= List.length s.
Proof.
  induction s as [s IH] using length_ind. destruct s as [|c r]; [simpl; lia|].
  destruct (py_isspace c) eqn:Ec.
  - rewrite (sub_espacios_space _ _ Ec). cbn [List.length].
    pose proof (drop_while_length py_isspace r) as Hd.
    assert (Hs : List.length (drop_while py_isspace r) < List.length (c :: r))
      by (cbn [List.length]; lia).
    specialize (IH _ Hs). lia.
  - rewrite (sub_espacios_other _ _ Ec). cbn [List.length].
    assert (Hs : List.length r < List.length (c :: r))
      by (cbn [List.length]; lia).
    specialize (IH _ Hs). lia.
Qed.

Lemma sub_referencia_id s :
  has_reference s = false -> Re.sub Re.pat_referencia [] s = s.
Proof.
  induction s as [|c r IH]; [reflexivity|].
  rewrite has_reference_cons.
  destruct (Re.pat_referencia None (c :: r)) eqn:Hp; [discriminate|].
  intros H. rewrite (sub_referencia_pass _ _ Hp). now rewrite IH.
Qed.

Lemma adjacent_spaces_tail a r :
  adjacent_spaces (a :: r) = false -> adjacent_spaces r = false.
Proof.
  destruct r as [|b t]; [reflexivity|].
  rewrite adjacent_spaces_cons. intros H. now apply orb_false_elim in H.
Qed.

Lemma sub_espacios_id s :
  (forall c, In c s -> py_isspace c = true -> c = " "%char) ->
  adjacent_spaces s = false ->
  Re.sub Re.pat_espacios (lit " ") s = s.
Proof.
  induction s as [|c r IH]; [reflexivity|].
  intros Hplain Hadj.
  assert (Hr : Re.sub Re.pat_espacios (lit " ") r = r).
  { apply IH; [intros x Hx; apply Hplain; now right|].
    eapply adjacent_spaces_tail; eassumption. }
  destruct (py_isspace c) eqn:Ec.
  - rewrite (sub_espacios_space _ _ Ec), (Hplain c (or_introl eq_refl) Ec).
    f_equal. destruct r as [|b t]; [reflexivity|].
    rewrite adjacent_spaces_cons, Ec in Hadj. simpl in Hadj.
    apply orb_false_elim in Hadj. destruct Hadj as [Hb _].
    cbn [drop_while]. rewrite Hb. exact Hr.
  - rewrite (sub_espacios_other _ _ Ec). now rewrite Hr.
Qed.

Lemma drop_while_first s :
  space_first s = false -> drop_while py_isspace s = s.
Proof. destruct s as [|c r]; simpl; [reflexivity|]. now intros ->. Qed.

Lemma py_strip_id s :
  space_first s = false -> space_last s = false -> py_strip s = s.
Proof.
  intros Hf Hl. unfold py_strip. rewrite (drop_while_first _ Hf).
  unfold space_last in Hl. rewrite (drop_while_first _ Hl).
  apply rev_involutive.
Qed.

Lemma limpiar_plain s c :
  In c (limpiar s) -> py_isspace c = true -> c = " "%char.
Proof.
  unfold limpiar. intros H. apply py_strip_In in H.
  eapply sub_espacios_plain; eassumption.
Qed.

Lemma limpiar_single_spaced s : adjacent_spaces (limpiar s) = false.
Proof.
  unfold limpiar.
  destruct (py_strip_infix
              (Re.sub Re.pat_espacios (lit " ")
                 (Re.sub Re.pat_referencia [] s))) as (pre & post & E).
  apply (adjacent_spaces_infix pre _ post). rewrite <- E.
  apply sub_espacios_single.
Qed.

Lemma limpiar_no_reference s :
  ~ In LF s -> has_reference (limpiar s) = false.
Proof.
  intros Hnl. destruct (has_reference (limpiar s)) eqn:E; [|reflexivity].
  apply has_reference_pair in E. unfold bracket_pair in E.
  rewrite <- closes_after_nonspace, limpiar_nonspace,
    closes_after_nonspace in E.
  apply pair_has_reference in E.
  - now rewrite sub_referencia_clean in E.
  - intros x Hx. apply sub_referencia_In in Hx.
    destruct (is_char 10 x) eqn:Ex; [|reflexivity].
    apply is_char_eq in Ex. subst x. contradiction.
Qed.

Lemma limpiar_no_LF s : ~ In LF (limpiar s).
Proof.
  intros H. apply limpiar_plain in H; [discriminate | reflexivity].
Qed.

(** A text that is already clean is left as it is. *)
Lemma limpiar_fixed y :
  has_reference y = false ->
  adjacent_spaces y = false ->
  space_first y = false -> space_last y = false ->
  (forall c, In c y -> py_isspace c = true -> c = " "%char) ->
  limpiar y = y.
Proof.
  intros Href Hadj Hf Hl Hplain. unfold limpiar.
  rewrite (sub_referencia_id _ Href), (sub_espacios_id _ Hplain Hadj).
  now apply py_strip_id.
Qed.

(** *** Bracket pairs, as a decomposition *)

Lemma closes_after_split y : forall o,
  closes_after o y = true ->
  (o = true /\ exists b c, y = b ++ ascii_of_N 93 :: c)
  \/ (exists a b c, y = a ++ ascii_of_N 91 :: b ++ ascii_of_N 93 :: c).
Proof.
  induction y as [|x r IH]; intros o; [discriminate|].
  rewrite closes_after_cons.
  destruct (o && is_char 93 x) eqn:E.
  - intros _. apply andb_prop in E. destruct E as [-> E].
    apply is_char_eq in E. subst x. left. split; [reflexivity|].
    now exists [], r.
  - intros H. apply IH in H. destruct H as [[Ho (b & c & ->)] | (a & b & c & ->)].
    + destruct o.
      * left. split; [reflexivity|]. now exists (x :: b), c.
      * simpl in Ho. apply is_char_eq in Ho. subst x. right.
        now exists [], b, c.
    + right. now exists (x :: a), b, c.
Qed.

Lemma closes_after_close b c : closes_after true (b ++ ascii_of_N 93 :: c) = true.
Proof.
  induction b as [|x b IH]; [reflexivity|].
  cbn [app]. rewrite closes_after_cons. simpl.
  now destruct (is_char 93 x).
Qed.

Lemma bracket_pair_split y :
  bracket_pair y = true <->
  exists a b c, y = a ++ ascii_of_N 91 :: b ++ ascii_of_N 93 :: c.
Proof.
  unfold bracket_pair. split.
  - intros H. apply closes_after_split in H.
    destruct H as [[Ho _] | H]; [discriminate | exact H].
  - intros (a & b & c & ->). generalize false.
    induction a as [|x a IH]; intros o; cbn [app]; rewrite closes_after_cons.
    + change (is_char 93 (ascii_of_N 91)) with false.
      change (is_char 91 (ascii_of_N 91)) with true.
      rewrite andb_false_r, orb_true_r. apply closes_after_close.
    + destruct (o && is_char 93 x); [reflexivity | apply IH].
Qed.

Lemma has_reference_app a y :
  has_reference y = true -> has_reference (a ++ y) = true.
Proof.
  intros H. induction a as [|x a IH]; [exact H|].
  cbn [app]. rewrite has_reference_cons.
  now destruct (Re.pat_referencia None (x :: a ++ y)).
Qed.

Lemma lazy_close_found b c :
  ~ In LF b -> exists k, Re.lazy_close (b ++ ascii_of_N 93 :: c) = Some k.
Proof.
  induction b as [|x b IH]; intros Hnl; [now exists 1|].
  cbn [app Re.lazy_close].
  destruct (is_char 93 x); [now exists 1|].
  destruct (is_char 10 x) eqn:Ex.
  - apply is_char_eq in Ex. subst x. exfalso. apply Hnl. now left.
  - destruct IH as [k ->]; [intros H; apply Hnl; now right|]. now exists (S k).
Qed.

(** Between the brackets of a pair that no match covers there is a line
    feed. *)
Lemma unmatched_pair_LF y a b c :
  has_reference y = false ->
  y = a ++ ascii_of_N 91 :: b ++ ascii_of_N 93 :: c -> In LF b.
Proof.
  intros Href ->. destruct (in_dec ascii_dec LF b) as [Hin | Hout]; [exact Hin|].
  exfalso. destruct (lazy_close_found b c Hout) as [k Hk].
  rewrite has_reference_app in Href; [discriminate|].
  rewrite has_reference_cons. unfold Re.pat_referencia.
  change (is_char 91 (ascii_of_N 91)) with true. cbv iota. now rewrite Hk.
Qed.

Lemma has_reference_without_LF y :
  ~ In LF y -> has_reference y = bracket_pair y.
Proof.
  intros Hnl. destruct (bracket_pair y) eqn:E.
  - apply pair_has_reference; [|exact E].
    intros x Hx. destruct (is_char 10 x) eqn:Ex; [|reflexivity].
    apply is_char_eq in Ex. subst x. contradiction.
  - destruct (has_reference y) eqn:E'; [|reflexivity].
    apply has_reference_pair in E'. congruence.
Qed.

Lemma bracket_pair_limpiar s :
  bracket_pair (limpiar s) = bracket_pair (Re.sub Re.pat_referencia [] s).
Proof.
  unfold bracket_pair.
  now rewrite <- closes_after_nonspace, limpiar_nonspace, closes_after_nonspace.
Qed.

(** C6 (amended).  For every raw text the cleaned text has no two whitespace
    characters in a row and no whitespace at either end, the empty text is
    cleaned to the empty text, and the text left by the first substitution
    holds no match of the reference pattern.  The cleaned text itself holds
    a match of the pattern exactly when the text left by the first
    substitution still holds an opening bracket followed, anywhere later, by
    a closing bracket; every such pair has a line feed between its two
    brackets.  So the cleaned text holds no bracket pair, and no match, when
    the raw text has no line feed. *)
Theorem limpiar_clean s :
  limpiar [] = []
  /\ adjacent_spaces (limpiar s) = false
  /\ space_first (limpiar s) = false
  /\ space_last (limpiar s) = false
  /\ has_reference (Re.sub Re.pat_referencia [] s) = false
  /\ has_reference (limpiar s)
     = bracket_pair (Re.sub Re.pat_referencia [] s)
  /\ (bracket_pair (Re.sub Re.pat_referencia [] s) = true <->
      exists a b c,
        Re.sub Re.pat_referencia [] s
        = a ++ ascii_of_N 91 :: b ++ ascii_of_N 93 :: c)
  /\ (forall a b c,
        Re.sub Re.pat_referencia [] s
        = a ++ ascii_of_N 91 :: b ++ ascii_of_N 93 :: c -> In LF b)
  /\ (~ In LF s ->
      bracket_pair (limpiar s) = false /\ has_reference (limpiar s) = false).
Proof.
  assert (Heq : has_reference (limpiar s)
                = bracket_pair (Re.sub Re.pat_referencia [] s)).
  { rewrite <- bracket_pair_limpiar.
    apply has_reference_without_LF, limpiar_no_LF. }
  split; [reflexivity|].
  split; [apply limpiar_single_spaced|].
  split; [apply py_strip_first|].
  split; [apply py_strip_last|].
  split; [apply sub_referencia_clean|].
  split; [exact Heq|].
  split; [apply bracket_pair_split|].
  split.
  { intros a b c E.
    exact (unmatched_pair_LF _ a b c (sub_referencia_clean s) E). }
  intros Hnl.
  assert (Hsub : bracket_pair (Re.sub Re.pat_referencia [] s) = false).
  { rewrite <- has_reference_without_LF; [apply sub_referencia_clean|].
    intros H. apply sub_referencia_In in H. contradiction. }
  rewrite bracket_pair_limpiar, Heq. now split.
Qed.

Lemma limpiar_clean_witness :
  ~ In LF (lit "a [1]  b") /\
  limpiar (lit "a [1]  b") = lit "a b" /\
  bracket_pair (limpiar (lit "a [1]  b")) = false /\
  has_reference (limpiar (lit "a [1]  b")) = false.
Proof.
  assert (H : ~ In LF (lit "a [1]  b")).
  { intros H. simpl in H. repeat (destruct H as [H | H]; [discriminate|]).
    exact H. }
  refine (conj H (conj eq_refl _)).
  exact (proj2 (proj2 (proj2 (proj2 (proj2 (proj2 (proj2 (proj2
           (limpiar_clean (lit "a [1]  b"))))))))) H).
Defined.

(** C6 as stated fails: brackets on two lines are not a reference for the
    pattern (its [.] stops at the line feed), and once the line feed is
    turned into a space the cleaned text matches the pattern. *)
Lemma limpiar_newline_counterexample :
  limpiar [ascii_of_N 91; LF; ascii_of_N 93] = lit "[ ]"
  /\ has_reference (limpiar [ascii_of_N 91; LF; ascii_of_N 93]) = true.
Proof. split; reflexivity. Qed.

(** X5.  Every whitespace character of the cleaned text is the plain space:
    tabs, line feeds and the other whitespace characters of the raw text
    never reach the output. *)
Theorem limpiar_only_plain_spaces s :
  (forall c, In c (limpiar s) -> py_isspace c = true -> c = " "%char)
  /\ ~ In LF (limpiar s)
  /\ ~ In (ascii_of_N 9) (limpiar s).
Proof.
  split; [intros c; apply limpiar_plain|].
  split; [apply limpiar_no_LF|].
  intros H. apply limpiar_plain in H; [discriminate | reflexivity].
Qed.

(** X6.  Cleaning a text that holds no bracketed reference touches
    whitespace only: the other characters are all kept, in their order. *)
Theorem limpiar_keeps_text s :
  has_reference s = false ->
  filter nonspace (limpiar s) = filter nonspace s.
Proof.
  intros H. now rewrite limpiar_nonspace, (sub_referencia_id _ H).
Qed.

Lemma limpiar_keeps_text_witness :
  has_reference (lit "  a [b  c ") = false
  /\ filter nonspace (limpiar (lit "  a [b  c "))
     = filter nonspace (lit "  a [b  c ").
Proof.
  assert (H : has_reference (lit "  a [b  c ") = false) by reflexivity.
  exact (conj H (limpiar_keeps_text _ H)).
Defined.

(** X7.  Cleaning never makes a text longer. *)
Theorem limpiar_length s : List.length (limpiar s) <= List.length s.
Proof.
  unfold limpiar.
  etransitivity; [apply py_strip_length|].
  etransitivity; [apply sub_espacios_length|].
  apply sub_referencia_length.
Qed.

(** X8.  The texts the cleaner leaves unchanged are exactly the clean ones:
    no match of the reference pattern, single plain spaces as the only
    whitespace, and none at either end. *)
Theorem limpiar_fixed_points y :
  limpiar y = y <->
  has_reference y = false
  /\ adjacent_spaces y = false
  /\ space_first y = false /\ space_last y = false
  /\ (forall c, In c y -> py_isspace c = true -> c = " "%char).
Proof.
  split.
  - intros H.
    assert (Hplain : forall c, In c y -> py_isspace c = true -> c = " "%char)
      by (rewrite <- H; intros c; apply limpiar_plain).
    assert (Hnl : ~ In LF y)
      by (intros Hin; apply Hplain in Hin; [discriminate | reflexivity]).
    repeat split; try exact Hplain; rewrite <- H.
    + now apply limpiar_no_reference.
    + apply limpiar_single_spaced.
    + apply py_strip_first.
    + apply py_strip_last.
  - intros (Href & Hadj & Hf & Hl & Hplain). now apply limpiar_fixed.
Qed.

(** X9.  On a raw text without line feed the cleaner is idempotent:
    cleaning the cleaned text changes nothing. *)
Theorem limpiar_idempotent s :
  ~ In LF s -> limpiar (limpiar s) = limpiar s.
Proof.
  intros Hnl. apply limpiar_fixed.
  - now apply limpiar_no_reference.
  - apply limpiar_single_spaced.
  - apply py_strip_first.
  - apply py_strip_last.
  - intros c. apply limpiar_plain.
Qed.

Lemma limpiar_idempotent_witness :
  ~ In LF (lit " a [1]  b [ c ")
  /\ limpiar (limpiar (lit " a [1]  b [ c ")) = limpiar (lit " a [1]  b [ c ").
Proof.
  assert (H : ~ In LF (lit " a [1]  b [ c ")).
  { intros H. simpl in H. repeat (destruct H as [H | H]; [discriminate|]).
    exact H. }
  exact (conj H (limpiar_idempotent _ H)).
Defined.

(* ================================================================== *)
(** ** More on the Latin tokenizer *)

Lemma lower_char_cases x :
  ascii_upper (lower_char x) = false
  /\ Re.word_char (lower_char x) = Re.word_char x
  /\ py_isspace (lower_char x) = py_isspace x.
Proof.
  destruct x as [[] [] [] [] [] [] [] []]; vm_compute; auto.
Qed.

Lemma space_not_word c : py_isspace c = true -> Re.word_char c = false.
Proof.
  destruct c as [[] [] [] [] [] [] [] []]; vm_compute; auto; discriminate.
Qed.

Lemma runs_from_In cls s : forall cur w,
  In w (runs_from cls cur s) ->
  w <> []
  /\ (exists pre post, cur ++ s = pre ++ w ++ post)
  /\ (forallb cls cur = true -> forallb cls w = true).
Proof.
  assert (Hclose : forall cur t w, In w (close_run cur) ->
            w <> [] /\ (exists pre post, cur ++ t = pre ++ w ++ post)
            /\ (forallb cls cur = true -> forallb cls w = true)).
  { intros cur t w H. destruct cur as [|a cur]; [destruct H|].
    destruct H as [<- | []]. split; [discriminate|].
    split; [now exists [], t | auto]. }
  induction s as [|c r IH]; intros cur w H; cbn [runs_from] in H.
  - now apply Hclose.
  - destruct (cls c) eqn:Ec.
    + apply IH in H. destruct H as (Hne & (pre & post & E) & Hall).
      split; [exact Hne|]. split.
      * exists pre, post. now rewrite <- E, <- app_assoc.
      * intros Hcur. apply Hall. rewrite forallb_app, Hcur. simpl.
        now rewrite Ec.
    + apply in_app_or in H. destruct H as [H | H]; [now apply Hclose|].
      apply IH in H. destruct H as (Hne & (pre & post & E) & Hall).
      split; [exact Hne|]. split; [|auto].
      exists (cur ++ c :: pre), post. simpl in E.
      now rewrite E, <- app_assoc.
Qed.

(** X10.  Every Latin token is a non-empty word of lowercase ASCII letters
    that stands, as written, in the lowercased text. *)
Theorem palabras_raw_tokens texto w :
  In w (palabras_raw texto) ->
  w <> []
  /\ forallb ascii_lower w = true
  /\ exists pre post, py_lower texto = pre ++ w ++ post.
Proof.
  unfold palabras_raw, Re.findall. rewrite (palabra_scan _ None).
  cbn [Re.word_opt]. intros H. apply filter_In in H. destruct H as [Hin Hall].
  apply runs_from_In in Hin. destruct Hin as (Hne & (pre & post & E) & _).
  simpl in E. split; [exact Hne|]. split; [|eauto].
  apply forallb_forall. intros c Hc.
  unfold all_letters in Hall. rewrite forallb_forall in Hall.
  specialize (Hall c Hc).
  assert (Hlow : In c (py_lower texto))
    by (rewrite E; apply in_or_app; right; apply in_or_app; now left).
  apply in_map_iff in Hlow. destruct Hlow as (x & <- & _).
  destruct (lower_char_cases x) as (Hup & _ & _).
  unfold Re.class_azAZ in Hall. rewrite Hup, orb_false_r in Hall. exact Hall.
Qed.

Lemma palabras_raw_tokens_witness :
  In (lit "rosa") (palabras_raw (lit "Rosa, ROSAM 1a"))
  /\ lit "rosa" <> []
  /\ forallb ascii_lower (lit "rosa") = true
  /\ exists pre post,
       py_lower (lit "Rosa, ROSAM 1a") = pre ++ lit "rosa" ++ post.
Proof.
  assert (H : In (lit "rosa") (palabras_raw (lit "Rosa, ROSAM 1a")))
    by (left; reflexivity).
  exact (conj H (palabras_raw_tokens _ _ H)).
Defined.

(** *** Whitespace does not matter to the tokenizer *)

Lemma forallb_rev_eq {A : Type} (p : A -> bool) (l : list A) :
  forallb p (rev l) = forallb p l.
Proof.
  induction l as [|x l IH]; [reflexivity|].
  simpl. rewrite forallb_app, IH. simpl. rewrite andb_true_r.
  apply andb_comm.
Qed.

Section RunsAndSpaces.

Variable cls : ascii -> bool.
Hypothesis cls_space : forall c, py_isspace c = true -> cls c = false.

Lemma runs_from_gap cur t :
  forallb py_isspace t = true -> runs_from cls cur t = close_run cur.
Proof.
  revert cur. induction t as [|c t IH]; intros cur H; [reflexivity|].
  simpl in H. apply andb_prop in H. destruct H as [Hc Ht].
  cbn [runs_from]. rewrite (cls_space _ Hc), (IH [] Ht). apply app_nil_r.
Qed.

Lemma runs_from_trailing s t : forall cur,
  forallb py_isspace t = true ->
  runs_from cls cur (s ++ t) = runs_from cls cur s.
Proof.
  induction s as [|c s IH]; intros cur Ht.
  - now apply runs_from_gap.
  - cbn [app runs_from]. destruct (cls c); now rewrite IH.
Qed.

Lemma runs_leading t s :
  forallb py_isspace t = true -> runs cls (t ++ s) = runs cls s.
Proof.
  unfold runs. induction t as [|c t IH]; intros H; [reflexivity|].
  simpl in H. apply andb_prop in H. destruct H as [Hc Ht].
  cbn [app runs_from]. rewrite (cls_space _ Hc). now apply IH.
Qed.

Lemma drop_while_spaces s :
  exists pre, s = pre ++ drop_while py_isspace s
              /\ forallb py_isspace pre = true.
Proof.
  induction s as [|c s (pre & E & Hpre)]; [now exists []|].
  cbn [drop_while]. destruct (py_isspace c) eqn:Ec; [|now exists []].
  exists (c :: pre). simpl. rewrite Ec, Hpre. split; [now f_equal | reflexivity].
Qed.

Lemma runs_py_strip s : runs cls (py_strip s) = runs cls s.
Proof.
  unfold py_strip.
  destruct (drop_while_spaces s) as (pre & E & Hpre).
  destruct (drop_while_spaces (rev (drop_while py_isspace s)))
    as (post & E' & Hpost).
  apply (f_equal (@rev ascii)) in E'.
  rewrite rev_involutive, rev_app_distr in E'.
  rewrite E at 2. rewrite (runs_leading _ _ Hpre). rewrite E' at 2.
  unfold runs. rewrite runs_from_trailing; [reflexivity|].
  now rewrite forallb_rev_eq.
Qed.

Lemma runs_from_sub_espacios s : forall cur,
  runs_from cls cur (Re.sub Re.pat_espacios (lit " ") s)
  = runs_from cls cur s.
Proof.
  induction s as [s IH] using length_ind. intros cur.
  destruct s as [|c r]; [reflexivity|].
  assert (Hr : List.length r < List.length (c :: r)) by (simpl; lia).
  destruct (py_isspace c) eqn:Ec.
  - rewrite (sub_espacios_space _ _ Ec). cbn [runs_from].
    rewrite (cls_space " "%char eq_refl), (cls_space _ Ec). f_equal.
    rewrite IH by (pose proof (drop_while_length py_isspace r); simpl; lia).
    destruct (drop_while_spaces r) as (pre & E & Hpre).
    rewrite E at 2. symmetry. now apply runs_leading.
  - rewrite (sub_espacios_other _ _ Ec). cbn [runs_from].
    destruct (cls c); now rewrite IH.
Qed.

End RunsAndSpaces.

Lemma runs_from_lower s : forall cur,
  runs_from Re.word_char (py_lower cur) (py_lower s)
  = map py_lower (runs_from (fun c => Re.word_char (lower_char c)) cur s).
Proof.
  assert (Hclose : forall cur,
            close_run (py_lower cur) = map py_lower (close_run cur))
    by (now intros [|a cur]).
  induction s as [|c r IH]; intros cur; cbn [py_lower map runs_from].
  - apply Hclose.
  - destruct (Re.word_char (lower_char c)).
    + fold (py_lower r). rewrite <- IH. unfold py_lower. now rewrite map_app.
    + fold (py_lower r). rewrite map_app, <- Hclose. f_equal. apply (IH []).
Qed.

Lemma palabras_raw_runs texto :
  palabras_raw texto =
  filter all_letters
    (map py_lower (runs (fun c => Re.word_char (lower_char c)) texto)).
Proof.
  unfold palabras_raw, Re.findall. rewrite (palabra_scan _ None).
  cbn [Re.word_opt]. unfold runs. now rewrite <- (runs_from_lower texto []).
Qed.

Lemma lower_word_space c :
  py_isspace c = true -> Re.word_char (lower_char c) = false.
Proof.
  intros H. destruct (lower_char_cases c) as (_ & -> & _).
  now apply space_not_word.
Qed.

(** X11.  The whitespace clean-up does not change what the Latin tokenizer
    sees: the cleaned text has the tokens of the text left by the reference
    substitution, and a text without bracketed reference has the same tokens,
    hence the same rankings, before and after cleaning. *)
Theorem palabras_raw_limpiar s :
  palabras_raw (limpiar s) = palabras_raw (Re.sub Re.pat_referencia [] s)
  /\ (has_reference s = false ->
      palabras_raw (limpiar s) = palabras_raw s
      /\ forall top_n, analizar_texto_latin_basico (limpiar s) top_n
                       = analizar_texto_latin_basico s top_n).
Proof.
  assert (H : palabras_raw (limpiar s)
              = palabras_raw (Re.sub Re.pat_referencia [] s)).
  { rewrite !palabras_raw_runs. unfold limpiar.
    rewrite (runs_py_strip _ lower_word_space). unfold runs.
    now rewrite (runs_from_sub_espacios _ lower_word_space). }
  split; [exact H|].
  intros Href. rewrite (sub_referencia_id _ Href) in H.
  split; [exact H|].
  intros top_n.
  unfold analizar_texto_latin_basico, lista_palabras, lista_verbos,
    buckets_latin, palabras_filtradas.
  now rewrite H.
Qed.

Lemma palabras_raw_limpiar_witness :
  has_reference (lit " rosa   [ amat ") = false
  /\ palabras_raw (limpiar (lit " rosa   [ amat "))
     = palabras_raw (lit " rosa   [ amat ").
Proof.
  assert (H : has_reference (lit " rosa   [ amat ") = false) by reflexivity.
  exact (conj H (proj1 (proj2 (palabras_raw_limpiar _) H))).
Defined.

(* ================================================================== *)
(** ** The rankings the two analyses return *)

Lemma most_common_entry top_n b t c :
  In (t, c) (most_common top_n (Counter b)) ->
  In t b /\ c = multiplicity b t.
Proof.
  unfold most_common. intros H. apply In_firstn in H.
  apply (Permutation_in _ (sorted_desc_perm _)) in H.
  split; [|now apply Counter_entry in H].
  apply keys_Counter_In. change t with (fst (t, c)). now apply in_map.
Qed.

Lemma multiplicity_filter (f : str -> bool) l t :
  f t = true -> multiplicity (filter f l) t = multiplicity l t.
Proof.
  intros Ht. unfold multiplicity. induction l as [|x l IH]; [reflexivity|].
  cbn [filter]. destruct (f x) eqn:Ex; cbn [count_occ].
  - now rewrite IH.
  - destruct (str_eq_dec x t) as [-> | _]; [congruence | exact IH].
Qed.

Lemma multiplicity_map {A : Type} (f : A -> str) l t :
  multiplicity (map f l) t
  = List.length (filter (fun x => str_eqb (f x) t) l).
Proof.
  unfold multiplicity, str_eqb. induction l as [|x l IH]; [reflexivity|].
  cbn [map count_occ filter].
  destruct (str_eq_dec (f x) t); cbn [List.length]; now rewrite IH.
Qed.

Lemma filter_twice {A : Type} (f g : A -> bool) l :
  filter f (filter g l) = filter (fun x => g x && f x) l.
Proof.
  induction l as [|x l IH]; [reflexivity|].
  cbn [filter]. destruct (g x); cbn [filter andb]; now rewrite IH.
Qed.

Lemma py_lower_idempotent s : py_lower (py_lower s) = py_lower s.
Proof.
  unfold py_lower. rewrite map_map. apply map_ext. intros x.
  destruct x as [[] [] [] [] [] [] [] []]; reflexivity.
Qed.

(** X12.  Every entry of the two Latin rankings is a token of the text that
    is longer than two characters and is not a stopword; its count is the
    number of times the token occurs among the filtered tokens; an entry of
    the verbs ranking ends with one of the endings and an entry of the words
    ranking with none, so no token is in both rankings. *)
Theorem analizar_latin_entries texto top_n :
  (forall t c,
     In (t, c) (fst (analizar_texto_latin_basico texto top_n)) ->
     In t (palabras_raw texto) /\ 2 < List.length t
     /\ ~ In t stopwords_latin /\ es_verbo t = false
     /\ c = multiplicity (palabras_filtradas texto) t)
  /\ (forall t c,
        In (t, c) (snd (analizar_texto_latin_basico texto top_n)) ->
        In t (palabras_raw texto) /\ 2 < List.length t
        /\ ~ In t stopwords_latin /\ es_verbo t = true
        /\ c = multiplicity (palabras_filtradas texto) t)
  /\ (forall t c c',
        In (t, c) (fst (analizar_texto_latin_basico texto top_n)) ->
        In (t, c') (snd (analizar_texto_latin_basico texto top_n)) -> False).
Proof.
  unfold analizar_texto_latin_basico. cbn [fst snd].
  rewrite lista_palabras_filter, lista_verbos_filter.
  assert (Hw : forall t c,
            In (t, c) (most_common top_n
                         (Counter (filter (fun p => negb (es_verbo p))
                                          (palabras_filtradas texto)))) ->
            In t (palabras_filtradas texto) /\ es_verbo t = false
            /\ c = multiplicity (palabras_filtradas texto) t).
  { intros t c H. apply most_common_entry in H. destruct H as [Hin ->].
    apply filter_In in Hin. destruct Hin as [Hin Hv].
    apply negb_true_iff in Hv. repeat split; auto.
    apply (multiplicity_filter (fun p => negb (es_verbo p))).
    now rewrite Hv. }
  assert (Hv : forall t c,
            In (t, c) (most_common top_n
                         (Counter (filter es_verbo
                                          (palabras_filtradas texto)))) ->
            In t (palabras_filtradas texto) /\ es_verbo t = true
            /\ c = multiplicity (palabras_filtradas texto) t).
  { intros t c H. apply most_common_entry in H. destruct H as [Hin ->].
    apply filter_In in Hin. destruct Hin as [Hin Hv]. repeat split; auto.
    now apply multiplicity_filter. }
  split; [|split].
  - intros t c H. apply Hw in H. destruct H as (Hin & Hcls & Hc).
    apply palabras_filtradas_In in Hin. tauto.
  - intros t c H. apply Hv in H. destruct H as (Hin & Hcls & Hc).
    apply palabras_filtradas_In in Hin. tauto.
  - intros t c c' H1 H2. apply Hw in H1. apply Hv in H2.
    destruct H1 as (_ & E1 & _), H2 as (_ & E2 & _). congruence.
Qed.

(** X13.  Every entry of the English verbs ranking is the lowercased lemma
    of a token of the document that passes the filters and is tagged VERB,
    and its count is the number of such tokens with that lemma; the same
    holds for the words ranking and the tags NOUN, PROPN and ADJ. *)
Theorem analizar_ingles_entries doc top_n :
  (forall t c,
     In (t, c) (snd (analizar_doc_ingles doc top_n)) ->
     py_lower t = t
     /\ (exists tok, In tok doc /\ contribuye_verbo tok = true /\ lema tok = t)
     /\ c = List.length
              (filter (fun tok => contribuye_verbo tok
                                  && str_eqb (lema tok) t) doc))
  /\ (forall t c,
        In (t, c) (fst (analizar_doc_ingles doc top_n)) ->
        py_lower t = t
        /\ (exists tok, In tok doc /\ contribuye_palabra tok = true
                        /\ lema tok = t)
        /\ c = List.length
                 (filter (fun tok => contribuye_palabra tok
                                     && str_eqb (lema tok) t) doc)).
Proof.
  assert (H : forall (f : Token -> bool) t c,
            In (t, c) (most_common top_n (Counter (map lema (filter f doc)))) ->
            py_lower t = t
            /\ (exists tok, In tok doc /\ f tok = true /\ lema tok = t)
            /\ c = List.length
                     (filter (fun tok => f tok && str_eqb (lema tok) t) doc)).
  { intros f t c Hin. apply most_common_entry in Hin.
    destruct Hin as [Hin ->]. split; [|split].
    - apply in_map_iff in Hin. destruct Hin as (tok & <- & _).
      apply py_lower_idempotent.
    - apply in_map_iff in Hin. destruct Hin as (tok & E & Hf).
      apply filter_In in Hf. exists tok. tauto.
    - now rewrite multiplicity_map, filter_twice. }
  unfold analizar_doc_ingles, buckets_ingles. rewrite paso_ingles_fold.
  cbn [app fst snd]. split; intros t c; apply H.
Qed.

(** X14.  A token of the document gives at most one entry, to at most one
    bucket: the two English buckets together are as long as the number of
    tokens that contribute, which is at most the number of tokens. *)
Theorem buckets_ingles_one_entry doc :
  (forall tok, contribuye_palabra tok = true -> contribuye_verbo tok = false)
  /\ List.length (fst (buckets_ingles doc))
     + List.length (snd (buckets_ingles doc))
     = List.length
         (filter (fun tok => contribuye_palabra tok || contribuye_verbo tok)
                 doc)
  /\ List.length (fst (buckets_ingles doc))
     + List.length (snd (buckets_ingles doc)) <= List.length doc.
Proof.
  assert (Hex : forall tok, contribuye_palabra tok = true ->
                            contribuye_verbo tok = false).
  { intros tok H. unfold contribuye_palabra in H. unfold contribuye_verbo.
    apply andb_prop in H. destruct H as [_ H].
    rewrite (tag_palabra_not_verb _ H). apply andb_false_r. }
  assert (Hlen : List.length (fst (buckets_ingles doc))
                 + List.length (snd (buckets_ingles doc))
                 = List.length
                     (filter (fun tok => contribuye_palabra tok
                                         || contribuye_verbo tok) doc)).
  { unfold buckets_ingles. rewrite paso_ingles_fold. cbn [app fst snd].
    rewrite !length_map. induction doc as [|tok doc IH]; [reflexivity|].
    cbn [filter]. specialize (Hex tok).
    destruct (contribuye_palabra tok); cbn [orb List.length].
    - rewrite (Hex eq_refl). lia.
    - destruct (contribuye_verbo tok); cbn [List.length]; lia. }
  split; [exact Hex|]. split; [exact Hlen|].
  rewrite Hlen. apply filter_length_le.
Qed.

(* ================================================================== *)
(** ** More on scraping and on [main] *)

Lemma py_slice_to_length (n : Z) s :
  (0 <= n)%Z -> (Z.of_nat (List.length (py_slice_to n s)) <= n)%Z.
Proof. intros Hn. unfold py_slice_to. rewrite length_firstn. lia. Qed.

Lemma py_slice_to_prefix (n : Z) s : exists rest, s = py_slice_to n s ++ rest.
Proof.
  exists (skipn (Z.to_nat n) s). unfold py_slice_to.
  symmetry. apply firstn_skipn.
Qed.

Lemma scrapear_respuesta_shape r :
  (fst (scrapear_respuesta r) = None <-> r = Excepcion)
  /\ (snd (scrapear_respuesta r) = None <-> r = Excepcion).
Proof.
  destruct r as [|tt [ps|]]; simpl; split; split; congruence.
Qed.

(** X15.  What a fetch returns: both components are [None] exactly when the
    request or the parse raised, and never only one of them; a title never
    starts or ends with whitespace and is "Sin Título" when the page has no
    heading; a text is single-spaced with plain spaces only and no
    whitespace at either end. *)
Theorem scrapear_wikipedia_shape (web : str -> respuesta) (url : str) :
  (fst (scrapear_wikipedia web url) = None <-> web url = Excepcion)
  /\ (snd (scrapear_wikipedia web url) = None <-> web url = Excepcion)
  /\ (forall div, web url = Pagina None div ->
                  fst (scrapear_wikipedia web url) = Some sin_titulo)
  /\ (forall titulo, fst (scrapear_wikipedia web url) = Some titulo ->
                     space_first titulo = false /\ space_last titulo = false)
  /\ (forall texto, snd (scrapear_wikipedia web url) = Some texto ->
                    adjacent_spaces texto = false
                    /\ space_first texto = false /\ space_last texto = false
                    /\ forall c, In c texto -> py_isspace c = true ->
                                 c = " "%char).
Proof.
  unfold scrapear_wikipedia.
  split; [apply scrapear_respuesta_shape|].
  split; [apply scrapear_respuesta_shape|].
  split; [intros div ->; now destruct div|].
  split.
  - intros titulo. destruct (web url) as [|[tt|] [ps|]]; simpl;
      intros [= <-]; try (split; [apply py_strip_first | apply py_strip_last]);
      split; reflexivity.
  - intros texto. destruct (web url) as [|tt [ps|]]; simpl; intros [= <-].
    + split; [apply limpiar_single_spaced|].
      split; [apply py_strip_first|]. split; [apply py_strip_last|].
      intros c. apply limpiar_plain.
    + repeat split. intros c [].
Qed.

(** The report [main] hands to the writer, when it gets that far. *)
Lemma main_reaches_writer
  (web : str -> respuesta) (nlp_en : str -> list Token)
  (excel_ok : Informe -> bool) (i : Informe) :
  main web nlp_en excel_ok = Guardado i
  \/ main web nlp_en excel_ok = ErrorAlGuardar i ->
  exists titulo_en titulo_la t_en t_la en,
    scrapear_wikipedia web url_en = (Some titulo_en, Some t_en)
    /\ scrapear_wikipedia web url_la = (Some titulo_la, Some t_la)
    /\ analizar_texto_ingles nlp_en t_en 15 = Some en
    /\ i = {| titulos := (Some titulo_en, Some titulo_la);
              contenido_limpio :=
                (py_slice_to 30000 t_en, py_slice_to 30000 t_la);
              analisis_ingles := en;
              analisis_latin := analizar_texto_latin_basico t_la 15 |}
    /\ main web nlp_en excel_ok
       = (if excel_ok i then Guardado i else ErrorAlGuardar i).
Proof.
  pose proof (scrapear_respuesta_shape (web url_en)) as [Hen_t Hen_x].
  pose proof (scrapear_respuesta_shape (web url_la)) as [Hla_t Hla_x].
  fold (scrapear_wikipedia web url_en) in Hen_t, Hen_x.
  fold (scrapear_wikipedia web url_la) in Hla_t, Hla_x.
  rewrite main_cases.
  destruct (scrapear_wikipedia web url_en) as [titulo_en texto_en].
  destruct (scrapear_wikipedia web url_la) as [titulo_la texto_la].
  cbn [fst snd] in *.
  destruct texto_en as [[|a r]|]; try (intros [H | H]; discriminate).
  destruct texto_la as [[|b t]|]; try (intros [H | H]; discriminate).
  destruct (analizar_texto_ingles nlp_en (a :: r) 15) as [en|] eqn:Ean;
    [|intros [H | H]; discriminate].
  destruct titulo_en as [titulo_en|];
    [|exfalso; destruct Hen_t as [Hn _], Hen_x as [_ Hx];
      specialize (Hx (Hn eq_refl)); discriminate].
  destruct titulo_la as [titulo_la|];
    [|exfalso; destruct Hla_t as [Hn _], Hla_x as [_ Hx];
      specialize (Hx (Hn eq_refl)); discriminate].
  cbv zeta.
  match goal with
  | |- context [excel_ok ?inf] => remember inf as informe eqn:Einf
  end.
  intros H.
  assert (Ei : i = informe)
    by (destruct (excel_ok informe); destruct H as [H | H]; congruence).
  subst i. exists titulo_en, titulo_la, (a :: r), (b :: t), en.
  repeat split; auto.
Qed.

(** X16.  When [main] reaches the writer, the workbook is reported saved
    exactly when the writer did not raise; the report carries the two titles
    as fetched (never [None]), and as contents the beginnings of the two
    cleaned texts, cut at 30000 characters, while the analyses are made on
    the whole texts. *)
Theorem main_informe
  (web : str -> respuesta) (nlp_en : str -> list Token)
  (excel_ok : Informe -> bool) (i : Informe) :
  main web nlp_en excel_ok = Guardado i
  \/ main web nlp_en excel_ok = ErrorAlGuardar i ->
  (main web nlp_en excel_ok = Guardado i <-> excel_ok i = true)
  /\ (exists titulo_en titulo_la,
        fst (scrapear_wikipedia web url_en) = Some titulo_en
        /\ fst (scrapear_wikipedia web url_la) = Some titulo_la
        /\ titulos i = (Some titulo_en, Some titulo_la))
  /\ (exists t_en t_la,
        snd (scrapear_wikipedia web url_en) = Some t_en
        /\ snd (scrapear_wikipedia web url_la) = Some t_la
        /\ contenido_limpio i = (py_slice_to 30000 t_en, py_slice_to 30000 t_la)
        /\ (exists rest, t_en = fst (contenido_limpio i) ++ rest)
        /\ (exists rest, t_la = snd (contenido_limpio i) ++ rest)
        /\ analizar_texto_ingles nlp_en t_en 15 = Some (analisis_ingles i)
        /\ analisis_ingles i = analizar_doc_ingles (nlp_en t_en) 15
        /\ analisis_latin i = analizar_texto_latin_basico t_la 15)
  /\ (Z.of_nat (List.length (fst (contenido_limpio i))) <= 30000)%Z
  /\ (Z.of_nat (List.length (snd (contenido_limpio i))) <= 30000)%Z.
Proof.
  intros H. apply main_reaches_writer in H.
  destruct H
    as (titulo_en & titulo_la & t_en & t_la & en & Een & Ela & Ean & Ei & Em).
  rewrite Em, Een, Ela. split.
  { destruct (excel_ok i); split; congruence. }
  rewrite Ei.
  cbn [titulos contenido_limpio analisis_ingles analisis_latin fst snd].
  split; [now exists titulo_en, titulo_la|].
  split.
  { exists t_en, t_la.
    repeat split; try reflexivity; try apply py_slice_to_prefix;
      [exact Ean | now apply analizar_texto_ingles_Some in Ean]. }
  split; apply py_slice_to_length; lia.
Qed.

Lemma main_informe_witness :
  let web := fun _ : str => Pagina (Some (lit " Rosa ")) (Some [lit "rosa amat"]) in
  let nlp_en := fun _ : str => [token_went] in
  let excel_ok := fun _ : Informe => true in
  exists i,
    (main web nlp_en excel_ok = Guardado i
     \/ main web nlp_en excel_ok = ErrorAlGuardar i)
    /\ (main web nlp_en excel_ok = Guardado i <-> excel_ok i = true)
    /\ titulos i = (Some (lit "Rosa"), Some (lit "Rosa"))
    /\ (Z.of_nat (List.length (fst (contenido_limpio i))) <= 30000)%Z.
Proof.
  intros web nlp_en excel_ok.
  assert (H : exists i, main web nlp_en excel_ok = Guardado i)
    by (eexists; reflexivity).
  destruct H as [i H]. exists i.
  pose proof (main_informe web nlp_en excel_ok i (or_introl H))
    as (Hok & _ & _ & Hlen & _).
  split; [now left|]. split; [exact Hok|]. split; [|exact Hlen].
  unfold main in H. simpl in H. injection H as <-. reflexivity.
Defined.

Lemma most_common_length top_n d :
  (0 <= top_n)%Z ->
  (Z.of_nat (List.length (most_common top_n d)) <= top_n)%Z.
Proof. intros H. unfold most_common. rewrite length_firstn. lia. Qed.

(** X17.  Each of the four rankings of the report has at most 15 entries,
    the default [top_n] that [main] leaves in place. *)
Theorem main_rankings_at_most_15
  (web : str -> respuesta) (nlp_en : str -> list Token)
  (excel_ok : Informe -> bool) (i : Informe) :
  main web nlp_en excel_ok = Guardado i
  \/ main web nlp_en excel_ok = ErrorAlGuardar i ->
  (Z.of_nat (List.length (fst (analisis_ingles i))) <= 15)%Z
  /\ (Z.of_nat (List.length (snd (analisis_ingles i))) <= 15)%Z
  /\ (Z.of_nat (List.length (fst (analisis_latin i))) <= 15)%Z
  /\ (Z.of_nat (List.length (snd (analisis_latin i))) <= 15)%Z.
Proof.
  intros H. apply main_reaches_writer in H.
  destruct H as (titulo_en & titulo_la & t_en & t_la & en & _ & _ & Ean & Ei & _).
  apply analizar_texto_ingles_Some in Ean. destruct Ean as [_ ->].
  rewrite Ei. cbn [analisis_ingles analisis_latin].
  unfold analizar_doc_ingles, analizar_texto_latin_basico.
  destruct (buckets_ingles (nlp_en t_en)) as [palabras verbos].
  cbn [fst snd]. repeat split; apply most_common_length; lia.
Qed.

Lemma main_rankings_at_most_15_witness :
  let web := fun _ : str => Pagina None (Some [lit "rosa amat"; lit "mare"]) in
  let nlp_en := fun _ : str => [token_went] in
  let excel_ok := fun _ : Informe => false in
  exists i,
    main web nlp_en excel_ok = ErrorAlGuardar i
    /\ (Z.of_nat (List.length (fst (analisis_ingles i))) <= 15)%Z
    /\ (Z.of_nat (List.length (snd (analisis_ingles i))) <= 15)%Z
    /\ (Z.of_nat (List.length (fst (analisis_latin i))) <= 15)%Z
    /\ (Z.of_nat (List.length (snd (analisis_latin i))) <= 15)%Z.
Proof.
  intros web nlp_en excel_ok.
  assert (H : exists i, main web nlp_en excel_ok = ErrorAlGuardar i)
    by (eexists; reflexivity).
  destruct H as [i H]. exists i. split; [exact H|].
  exact (main_rankings_at_most_15 web nlp_en excel_ok i (or_intror H)).
Defined.

(* ================================================================== *)
(** ** Paragraphs and references *)

Lemma lazy_close_LF r b : Re.lazy_close (r ++ LF :: b) = Re.lazy_close r.
Proof.
  induction r as [|c r IH]; [reflexivity|].
  cbn [app Re.lazy_close]. now rewrite IH.
Qed.

Lemma sub_referencia_LF a b :
  Re.sub Re.pat_referencia [] (a ++ LF :: b)
  = Re.sub Re.pat_referencia [] a ++ LF :: Re.sub Re.pat_referencia [] b.
Proof.
  induction a as [a IH] using length_ind. destruct a as [|c r].
  - cbn [app]. now rewrite sub_referencia_pass.
  - cbn [app].
    destruct (pat_referencia_cases c r) as [(k & Hc & Hk) | [Hp Hopen]].
    + assert (Hk' : Re.lazy_close (r ++ LF :: b) = Some k)
        by now rewrite lazy_close_LF.
      rewrite (sub_referencia_match _ _ _ Hc Hk),
        (sub_referencia_match _ _ _ Hc Hk').
      pose proof (lazy_close_bound _ _ Hk) as Hlen.
      rewrite skipn_app. replace (k - List.length r) with 0 by lia.
      cbn [skipn]. apply IH. rewrite length_skipn. simpl. lia.
    + assert (Hp' : Re.pat_referencia None (c :: r ++ LF :: b) = None).
      { simpl. rewrite lazy_close_LF.
        destruct (is_char 91 c); [|reflexivity].
        now rewrite (Hopen eq_refl). }
      rewrite (sub_referencia_pass _ _ Hp), (sub_referencia_pass _ _ Hp').
      cbn [app]. f_equal. apply IH. simpl. lia.
Qed.

(** X18.  References are removed paragraph by paragraph: on the paragraphs
    joined with line feeds the substitution acts as on each paragraph alone,
    so a bracket left open in one paragraph never swallows text of the
    next. *)
Theorem sub_referencia_parrafos (parrafos : list str) :
  Re.sub Re.pat_referencia [] (py_join [LF] parrafos)
  = py_join [LF] (map (Re.sub Re.pat_referencia []) parrafos).
Proof.
  induction parrafos as [|p rest IH]; [reflexivity|].
  destruct rest as [|q rest]; [reflexivity|].
  change (py_join [LF] (p :: q :: rest))
    with (p ++ LF :: py_join [LF] (q :: rest)).
  rewrite sub_referencia_LF, IH. reflexivity.
Qed.

(* ================================================================== *)
(** ** Buckets without repetition *)

Lemma sorted_desc_fixed l : StronglySorted count_ge l -> sorted_desc l = l.
Proof.
  induction l as [|x l IH]; intros H; [reflexivity|].
  inversion H as [|? ? Hl Hall]; subst.
  cbn [sorted_desc fold_right]. fold (sorted_desc l). rewrite (IH Hl).
  destruct l as [|y r]; [reflexivity|].
  inversion Hall as [|? ? Hxy _]; subst. unfold count_ge in Hxy.
  cbn [insert_desc]. now rewrite (proj2 (Nat.ltb_ge _ _) Hxy).
Qed.

Lemma counter_add_new k d :
  ~ In k (keys d) -> counter_add k d = d ++ [(k, 1)].
Proof.
  induction d as [|[k' c] d IH]; simpl; intros H; [reflexivity|].
  destruct (str_eq_dec k k') as [-> | _]; [tauto|].
  rewrite IH; tauto.
Qed.

Lemma Counter_once b :
  NoDup b -> Counter b = map (fun t => (t, 1)) b.
Proof.
  induction b as [|k b IH] using rev_ind; intros H; [reflexivity|].
  apply NoDup_remove in H. rewrite app_nil_r in H. destruct H as [Hb Hk].
  rewrite Counter_snoc, counter_add_new, (IH Hb), map_app; [reflexivity|].
  now rewrite keys_Counter_In.
Qed.

(** X19.  For a bucket in which no token is repeated the ranking is the
    bucket itself, in text order, each token with count 1, cut at [top_n]. *)
Theorem most_common_without_repetition b top_n :
  NoDup b ->
  most_common top_n (Counter b)
  = firstn (Z.to_nat top_n) (map (fun t => (t, 1)) b).
Proof.
  intros H. unfold most_common. rewrite (Counter_once _ H). f_equal.
  apply sorted_desc_fixed. clear H.
  induction b as [|t b IH]; cbn [map]; constructor; [exact IH|].
  apply Forall_forall. intros x Hx. apply in_map_iff in Hx.
  destruct Hx as (t' & <- & _). unfold count_ge. simpl. lia.
Qed.

Lemma most_common_without_repetition_witness :
  let b := [lit "puella"; lit "puellam"; lit "rosa"] in
  NoDup b
  /\ most_common 2 (Counter b)
     = firstn (Z.to_nat 2) (map (fun t => (t, 1)) b).
Proof.
  intros b.
  assert (H : NoDup b).
  { repeat constructor; simpl; intuition discriminate. }
  exact (conj H (most_common_without_repetition b 2 H)).
Defined.
